(** * Sypher STT: the capture / transcription coordination core

    A shallow embedding of [sypher_stt/audio.py], [transcriber.py],
    [hotkeys.py], [tray.py], [clipboard.py], [sounds.py] and the state logic
    of [app.py], followed by the properties of the recorder, the
    transcription engine and the hotkey-driven coordinator.

    Python objects become records, methods become computations in a state
    and exception monad over the object paired with the outside world, and
    every call that leaves the program (PortAudio, faster-whisper, the
    clipboard, the tray icon, the logger) is appended to a trace.  What the
    outside answers (a device that refuses to open, a model file that is
    missing, an inference that fails) is read from the world, so a theorem
    that quantifies over the world covers every behaviour of the outside.

    The callbacks of one thread run one at a time: a hotkey callback and an
    audio block callback are each atomic here.  A transcription thread
    runs in two steps, up to the release of the state lock and from there
    on, so that the callbacks of the other threads come in between.  The
    calls into PortAudio, faster-whisper, the clipboard, the keyboard and
    the tray icon can raise here; logging and starting a thread return. *)

From Stdlib Require Import ZArith Lia Ascii String.
From stdpp Require Import base strings gmap list sorting.

Local Open Scope Z_scope.

(** ** Exceptions and results *)

(** The subclasses of Python's [Exception] that the program raises or
    catches by name, and [OtherError] for any other subclass raised by a
    library.  The string is the text [str(e)] gives. *)
Inductive exn : Type :=
| ValueError (msg : string)
| FileNotFoundError (msg : string)
| AttributeError (msg : string)
| PortAudioError (msg : string)
| OtherError (cls msg : string).

Definition str_exn (e : exn) : string :=
  match e with
  | ValueError m | FileNotFoundError m | AttributeError m
  | PortAudioError m | OtherError _ m => m
  end.

Definition is_PortAudioError (e : exn) : bool :=
  match e with PortAudioError _ => true | _ => false end.


Definition is_ValueError (e : exn) : bool :=
  match e with ValueError _ => true | _ => false end.

Inductive result (A : Type) : Type :=
| Ok (a : A)
| Raise (e : exn).
Arguments Ok {A} a.
Arguments Raise {A} e.

(** ** The state and exception monad

    A raised exception keeps the state reached so far, as in Python. *)
Definition M (Σ A : Type) : Type := Σ → result A * Σ.

Global Instance M_ret {Σ} : MRet (M Σ) := λ A a s, (Ok a, s).

Global Instance M_bind {Σ} : MBind (M Σ) := λ A B f m s,
  match m s with
  | (Ok a, s') => f a s'
  | (Raise e, s') => (Raise e, s')
  end.

Definition raise {Σ A} (e : exn) : M Σ A := λ s, (Raise e, s).

Definition gets {Σ A} (f : Σ → A) : M Σ A := λ s, (Ok (f s), s).

Definition modify {Σ} (f : Σ → Σ) : M Σ unit := λ s, (Ok tt, f s).

(** [try: body / except <classes in catches> as e: handler e]. *)
Definition try_except {Σ A} (catches : exn → bool)
    (body : M Σ A) (handler : exn → M Σ A) : M Σ A := λ s,
  match body s with
  | (Ok a, s') => (Ok a, s')
  | (Raise e, s') => if catches e then handler e s' else (Raise e, s')
  end.

(** [try: body / finally: final]: [final] runs on every exit of [body]; an
    exception of [final] replaces the outcome of [body]. *)
Definition try_finally {Σ A} (body : M Σ A) (final : M Σ unit) : M Σ A := λ s,
  match body s with
  | (r, s') =>
      match final s' with
      | (Ok _, s'') => (r, s'')
      | (Raise e, s'') => (Raise e, s'')
      end
  end.

(** [except Exception]: every class of [exn] is a subclass of [Exception]. *)
Definition Exception (e : exn) : bool := true.

(** The state a computation leaves, whatever its outcome. *)
Definition exec {Σ A} (m : M Σ A) (s : Σ) : Σ := (m s).2.

(** A value or an exception already at hand, as a computation. *)
Definition of_result {Σ A} (r : result A) : M Σ A := λ s, (r, s).

(** The outcome of a computation as a value, for whoever runs it and goes
    on whatever it did. *)
Definition attempt {Σ A} (m : M Σ A) : M Σ (result A) := λ s,
  match m s with
  | (r, s') => (Ok r, s')
  end.

(** ** Data *)

(** A float32 sample, carried as its 32-bit pattern; the program never
    computes on samples. *)
Definition float32 : Type := Z.

(** A one-dimensional [np.ndarray] of float32. *)
Definition ndarray : Type := list float32.

Definition size (a : ndarray) : Z := Z.of_nat (length a).

(** [np.concatenate] over one-dimensional arrays. *)
Definition np_concatenate (chunks : list ndarray) : ndarray := concat chunks.

(** A [pathlib.Path] below the project root, as its components. *)
Definition path : Type := list string.

Definition path_div (p : path) (name : string) : path := p ++ [name].

Inductive level : Type := DEBUG | INFO | WARNING | ERROR | CRITICAL.

(** [tray.py]: [class AppState(Enum)]. *)
Inductive AppState : Type := IDLE | RECORDING | TRANSCRIBING.

Global Instance AppState_eq_dec : EqDecision AppState.
Proof. solve_decision. Defined.

(** ** Constants ([constants.py]) *)

Definition MODELS_DIR : path := ["models"%string].

Definition SAMPLE_RATE : Z := 16000.
Definition CHANNELS : Z := 1.
Definition BLOCK_SIZE : Z := 1024.
Definition MAX_RECORDING_SECONDS : Z := 120.

Definition AVAILABLE_MODELS : list string :=
  [ "tiny.en"; "tiny";
    "base.en"; "base";
    "small.en"; "small";
    "medium.en"; "medium";
    "large-v2"; "large-v3"; "large-v3-turbo" ]%string.

Definition DEFAULT_MODEL : string := "base.en".
Definition DEFAULT_HOTKEY : string := "f9".

(** ** The outside world *)

(** A call that leaves the program.  The trace keeps the calls in the order
    they were made; a call that raised is in the trace too. *)
Inductive effect : Type :=
| Log (lvl : level) (msg : string)
| PaOpen (h : nat) (samplerate channels blocksize : Z) (device : option Z)
| PaStart (h : nat)
| PaStop (h : nat)
| PaClose (h : nat)
| WhisperLoad (p : path)
| WhisperRun (p : path) (audio : ndarray)
| ClipboardPaste
| ClipboardCopy (text : string)
| SendKeys (keys : list string)
| ClipboardRestore (text : string)
| Beep (frequency duration_ms : Z)
| IconUpdate (s : AppState)
| IconMenu
| IconNotify (title message : string).

(** What the outside answers when called.  [None] in an [option exn] means
    the call returns normally. *)
Record Env : Type := {
  pa_open : option exn;     (* sd.InputStream(...) *)
  pa_start : option exn;    (* stream.start() *)
  pa_stop : option exn;     (* stream.stop() *)
  pa_close : option exn;    (* stream.close() *)
  files : gset path;        (* the paths that exist *)
  whisper_load : path → option exn;                    (* WhisperModel(path, ...) *)
  whisper_run : path → ndarray → result (list string); (* the texts of model.transcribe's segments *)
  clip_text_only : bool;    (* _clipboard_has_text_only() *)
  clip_paste : result string;  (* pyperclip.paste() *)
  clip_copy : option exn;   (* pyperclip.copy(...) *)
  send_keys : option exn;   (* pyautogui.hotkey(...) *)
  icon_update : AppState → option exn;  (* icon.icon = ...; icon.title = ... *)
  icon_menu : option exn;   (* icon.menu = ... *)
  icon_notify : option exn; (* icon.notify(...) *)
}.

Record World : Type := {
  env : Env;
  pa_streams : nat;         (* streams created so far: the next handle *)
  trace : list effect;
}.

Definition with_env (e : Env) (w : World) : World :=
  {| env := e; pa_streams := pa_streams w; trace := trace w |}.

Definition with_trace (t : list effect) (w : World) : World :=
  {| env := env w; pa_streams := pa_streams w; trace := t |}.

Definition with_pa_streams (n : nat) (w : World) : World :=
  {| env := env w; pa_streams := n; trace := trace w |}.

(** A world in which nothing has been done yet. *)
Definition fresh (e : Env) : World := {| env := e; pa_streams := 0; trace := [] |}.

(** Call counts over the trace: the models loaded and the inferences run
    so far. *)
Definition is_load (e : effect) : bool :=
  match e with WhisperLoad _ => true | _ => false end.

Definition is_inference (e : effect) : bool :=
  match e with WhisperRun _ _ => true | _ => false end.

Definition calls (p : effect → bool) (w : World) : nat :=
  length (List.filter p (trace w)).

Definition loads : World → nat := calls is_load.
Definition inferences : World → nat := calls is_inference.

(** An object of class [C] next to the world: what a method can touch. *)
Section Object.
Context {C : Type}.

Definition self : M (C * World) C := gets fst.
Definition world : M (C * World) World := gets snd.
Definition update (f : C → C) : M (C * World) unit :=
  modify (λ s, (f s.1, s.2)).
Definition emit (e : effect) : M (C * World) unit :=
  modify (λ s, (s.1, with_trace (trace s.2 ++ [e]) s.2)).
Definition log (lvl : level) (msg : string) : M (C * World) unit :=
  emit (Log lvl msg).

(** An outside call: it is recorded, then raises what the world says. *)
Definition outside (e : effect) (answer : Env → option exn) : M (C * World) unit :=
  emit e;;
  w ← world;
  match answer (env w) with
  | Some x => raise x
  | None => mret tt
  end.

(** [sd.InputStream(samplerate=..., channels=..., dtype="float32",
    blocksize=..., device=..., callback=...)]. *)
Definition sd_InputStream (samplerate channels blocksize : Z)
    (device : option Z) : M (C * World) nat :=
  w ← world;
  let h := pa_streams w in
  outside (PaOpen h samplerate channels blocksize device) pa_open;;
  modify (λ s, (s.1, with_pa_streams (S h) s.2));;
  mret h.

Definition stream_start (h : nat) : M (C * World) unit := outside (PaStart h) pa_start.
Definition stream_stop (h : nat) : M (C * World) unit := outside (PaStop h) pa_stop.
Definition stream_close (h : nat) : M (C * World) unit := outside (PaClose h) pa_close.
End Object.

(** Running a method of a component [C] held in a field of [A]. *)
Definition zoom {A C R} (get : A → C) (set : C → A → A)
    (m : M (C * World) R) : M (A * World) R := λ s,
  match m (get s.1, s.2) with
  | (r, (c, w)) => (r, (set c s.1, w))
  end.

(** ** [audio.py]: [class AudioRecorder] *)

Module AudioRecorder.

Record t : Type := {
  _device : option Z;
  _chunks : list ndarray;
  _samples_recorded : Z;
  _stream : option nat;
  _recording : bool;        (* threading.Event: is_set() *)
}.

Definition set_chunks (v : list ndarray) (r : t) : t :=
  {| _device := _device r; _chunks := v; _samples_recorded := _samples_recorded r;
     _stream := _stream r; _recording := _recording r |}.
Definition set_samples_recorded (v : Z) (r : t) : t :=
  {| _device := _device r; _chunks := _chunks r; _samples_recorded := v;
     _stream := _stream r; _recording := _recording r |}.
Definition set_stream (v : option nat) (r : t) : t :=
  {| _device := _device r; _chunks := _chunks r; _samples_recorded := _samples_recorded r;
     _stream := v; _recording := _recording r |}.
Definition set_recording (v : bool) (r : t) : t :=
  {| _device := _device r; _chunks := _chunks r; _samples_recorded := _samples_recorded r;
     _stream := _stream r; _recording := v |}.

Definition __init__ (device : option Z) : t :=
  {| _device := device; _chunks := []; _samples_recorded := 0;
     _stream := None; _recording := false |}.

(** [indata] stands for [indata[:, 0]], the only column of a mono block;
    [status] is the truth value of the callback flags. *)
Definition _audio_callback (indata : ndarray) (frames : Z) (status : bool)
    : M (t * World) unit :=
  (if status then log WARNING "Audio stream status: %s" else mret tt);;
  r ← self;
  if _recording r then
    update (λ r, set_chunks (_chunks r ++ [indata]) r);;
    update (λ r, set_samples_recorded (_samples_recorded r + frames) r);;
    r ← self;
    if bool_decide (SAMPLE_RATE * MAX_RECORDING_SECONDS ≤ _samples_recorded r) then
      log WARNING "Max recording duration (%ds) reached, auto-stopping.";;
      update (set_recording false)
    else mret tt
  else mret tt.

Definition start_recording : M (t * World) unit :=
  update (set_chunks []);;
  update (set_samples_recorded 0);;
  update (set_recording true);;
  try_except is_PortAudioError
    (r ← self;
     h ← sd_InputStream SAMPLE_RATE CHANNELS BLOCK_SIZE (_device r);
     update (set_stream (Some h));;
     stream_start h)
    (λ e,
     update (set_recording false);;
     log ERROR "Failed to open microphone: %s";;
     raise e).

Definition stop_recording : M (t * World) ndarray :=
  update (set_recording false);;
  r ← self;
  match _stream r with
  | Some h =>
      try_except Exception
        (stream_stop h;;
         stream_close h)
        (λ e, log WARNING "Error closing audio stream: %s");;
      update (set_stream None)
  | None => mret tt
  end;;
  r ← self;
  match _chunks r with
  | _ :: _ =>
      let audio := np_concatenate (_chunks r) in
      update (set_chunks []);;
      log DEBUG "Recorded %.1fs of audio (%d samples)";;
      mret audio
  | [] => mret []
  end.

Definition is_recording (r : t) : bool := _recording r.

(** What can happen to a recorder: a call of one of its two methods, the
    stream delivering a block, and the outside changing its answers. *)
Inductive event : Type :=
| Start
| Stop
| Block (indata : ndarray) (frames : Z) (status : bool)
| Answers (e : Env).

Definition step (ev : event) (s : t * World) : t * World :=
  match ev with
  | Start => exec start_recording s
  | Stop => exec stop_recording s
  | Block indata frames status => exec (_audio_callback indata frames status) s
  | Answers e => (s.1, with_env e s.2)
  end.

Definition steps (evs : list event) (s : t * World) : t * World :=
  foldl (λ s ev, step ev s) s evs.

End AudioRecorder.

(** ** Python strings

    Texts are byte strings here; [strip] removes the ASCII white space of
    [str.isspace]. *)

Definition isspace (c : ascii) : bool :=
  let n := nat_of_ascii c in
  ((9 <=? n) && (n <=? 13) || (28 <=? n) && (n <=? 32))%nat.

Fixpoint lstrip (s : string) : string :=
  match s with
  | String c s' => if isspace c then lstrip s' else s
  | EmptyString => EmptyString
  end.

Definition rstrip (s : string) : string := String.rev (lstrip (String.rev s)).

Definition strip (s : string) : string := rstrip (lstrip s).

(** [sep.join(parts)]. *)
Fixpoint join (sep : string) (parts : list string) : string :=
  match parts with
  | [] => ""
  | [x] => x
  | x :: rest => x +:+ sep +:+ join sep rest
  end.

(** The truth value of a [str]. *)
Definition truthy (s : string) : bool :=
  match s with EmptyString => false | String _ _ => true end.

(** ** [transcriber.py]: [class Transcriber] *)

Module Transcriber.

(** A loaded [faster_whisper.WhisperModel], known by the directory it was
    loaded from. *)
Record WhisperModel : Type := { model_path : path }.

Record t : Type := {
  _model_size : string;
  _model : option WhisperModel;
}.

Definition set_model_size (v : string) (r : t) : t :=
  {| _model_size := v; _model := _model r |}.
Definition set_model (v : option WhisperModel) (r : t) : t :=
  {| _model_size := _model_size r; _model := v |}.

(** [value in AVAILABLE_MODELS]. *)
Definition available (value : string) : bool :=
  bool_decide (value ∈ AVAILABLE_MODELS).

Definition unknown_model (value : string) : exn :=
  ValueError ("Unknown model '" +:+ value +:+ "'.").

Definition __init__ (model_size : string) : result t :=
  if negb (available model_size) then Raise (unknown_model model_size)
  else Ok {| _model_size := model_size; _model := None |}.

Definition _get_model_path (r : t) : path := path_div MODELS_DIR (_model_size r).

(** [p.exists()]. *)
Definition path_exists (w : World) (p : path) : bool :=
  bool_decide (p ∈ files (env w)).

(** [WhisperModel(str(model_path), device="cpu", compute_type="auto",
    local_files_only=True)]. *)
Definition WhisperModel_new (p : path) : M (t * World) WhisperModel :=
  outside (WhisperLoad p) (λ e, whisper_load e p);;
  mret {| model_path := p |}.

(** [model.transcribe(audio, language="en", beam_size=5, ...)], then the
    texts of the segments it yields. *)
Definition WhisperModel_transcribe (m : WhisperModel) (audio : ndarray)
    : M (t * World) (list string) :=
  emit (WhisperRun (model_path m) audio);;
  w ← world;
  match whisper_run (env w) (model_path m) audio with
  | Ok texts => mret texts
  | Raise e => raise e
  end.

(** The message of the source also lists the path and the local models. *)
Definition model_not_found (r : t) : exn :=
  FileNotFoundError ("Model '" +:+ _model_size r +:+ "' not found.").

Definition ensure_model : M (t * World) unit :=
  r ← self;
  match _model r with
  | Some _ => mret tt
  | None =>
      (* with self._load_lock: *)
      r ← self;
      match _model r with
      | Some _ => mret tt
      | None =>
          let model_path := _get_model_path r in
          w ← world;
          if negb (path_exists w model_path)
             || negb (path_exists w (path_div model_path "model.bin")) then
            raise (model_not_found r)
          else
            log INFO "Loading model '%s' from %s";;
            m ← WhisperModel_new model_path;
            update (set_model (Some m));;
            log INFO "Model '%s' loaded successfully."
      end
  end.

Definition transcribe (audio : ndarray) : M (t * World) string :=
  if bool_decide (size audio < 1600) then
    log DEBUG "Audio too short (%d samples), skipping.";;
    mret ""
  else
    ensure_model;;
    r ← self;
    segments ←
      match _model r with
      | Some m => WhisperModel_transcribe m audio
      | None => raise (AttributeError "'NoneType' object has no attribute 'transcribe'")
      end;
    let text_parts := strip <$> segments in
    let result := strip (join " " text_parts) in
    log INFO "Transcribed %d chars from %.1fs audio.";;
    mret result.

(** The property [model_size] and its setter. *)
Definition model_size (r : t) : string := _model_size r.

Definition model_size_setter (value : string) : M (t * World) unit :=
  if negb (available value) then raise (unknown_model value)
  else
    r ← self;
    if bool_decide (value ≠ _model_size r) then
      log INFO "Model changed from '%s' to '%s'. Will reload on next use.";;
      update (set_model_size value);;
      update (set_model None)
    else mret tt.

Definition is_loaded (r : t) : bool :=
  match _model r with Some _ => true | None => false end.

(** Whether the model directory of the configured name and its [model.bin]
    both exist. *)
Definition on_disk (w : World) (r : t) : bool :=
  path_exists w (_get_model_path r)
  && path_exists w (path_div (_get_model_path r) "model.bin").

(** The world once the loader has been called for the configured model. *)
Definition loading (tr : t) (w : World) : World :=
  with_trace
    (trace w ++ [Log INFO "Loading model '%s' from %s";
                 WhisperLoad (_get_model_path tr)]) w.

(** What can happen to a transcriber: a call of one of its methods, and the
    outside changing its answers. *)
Inductive event : Type :=
| EnsureModel
| Transcribe (audio : ndarray)
| SetModelSize (value : string)
| Answers (e : Env).

Definition step (ev : event) (s : t * World) : t * World :=
  match ev with
  | EnsureModel => exec ensure_model s
  | Transcribe audio => exec (transcribe audio) s
  | SetModelSize value => exec (model_size_setter value) s
  | Answers e => (s.1, with_env e s.2)
  end.

Definition steps (evs : list event) (s : t * World) : t * World :=
  foldl (λ s ev, step ev s) s evs.

End Transcriber.

(** ** [clipboard.py] and [sounds.py] *)

Section Glue.
Context {C : Type}.

Definition paste_text (text : string) (restore_clipboard : bool) : M (C * World) unit :=
  if negb (truthy text) then mret tt
  else
    saved ←
      (if restore_clipboard return M (C * World) (option string * bool) then
         w ← world;
         if clip_text_only (env w) then
           try_except Exception
             (emit ClipboardPaste;;
              match clip_paste (env w) with
              | Ok old => mret (Some old, true)
              | Raise e => raise e
              end)
             (λ _, mret (None, false))
         else
           log DEBUG "Clipboard contains non-text content; cannot preserve.";;
           mret (None, false)
       else mret (None, false));
    let old_clipboard : option string := saved.1 in
    let can_restore : bool := saved.2 in
    outside (ClipboardCopy text) clip_copy;;
    (* time.sleep(0.05) *)
    sent ←
      try_except (A := bool) Exception
        (outside (SendKeys ["ctrl"; "v"]%string) send_keys;;
         mret true)
        (λ e,
         log ERROR "Failed to simulate Ctrl+V: %s";;
         mret false);
    if sent : bool then
      log DEBUG "Pasted %d chars into active window.";;
      if can_restore then
        (* the _restore thread *)
        emit (ClipboardRestore (default "" old_clipboard))
      else mret tt
    else mret tt.

(** Each sound starts a thread that beeps and swallows its own errors. *)
Definition play_start_sound : M (C * World) unit := emit (Beep 800 100).
Definition play_stop_sound : M (C * World) unit := emit (Beep 400 100).
Definition play_error_sound : M (C * World) unit := emit (Beep 200 200).

End Glue.

(** ** [tray.py]: [class TrayApp] *)

Module TrayApp.

Record t : Type := {
  _hotkey_name : string;
  _version : string;
  _state : AppState;
  _icon : bool;             (* whether the pystray icon exists yet *)
}.

Definition set__state (v : AppState) (r : t) : t :=
  {| _hotkey_name := _hotkey_name r; _version := _version r; _state := v; _icon := _icon r |}.
Definition set_hotkey_name (v : string) (r : t) : t :=
  {| _hotkey_name := v; _version := _version r; _state := _state r; _icon := _icon r |}.
Definition set_icon (v : bool) (r : t) : t :=
  {| _hotkey_name := _hotkey_name r; _version := _version r; _state := _state r; _icon := v |}.

Definition __init__ (hotkey_name version : string) : t :=
  {| _hotkey_name := hotkey_name; _version := version; _state := IDLE; _icon := false |}.

Definition set_state (state : AppState) : M (t * World) unit :=
  update (set__state state);;
  r ← self;
  if _icon r then outside (IconUpdate state) (λ e, icon_update e state)
  else mret tt.

(** The start of [run], on the tray thread: the icon comes to exist. *)
Definition run : M (t * World) unit :=
  update (set_icon true);;
  emit (IconUpdate IDLE);;
  log INFO "System tray icon started.".

Definition notify (title message : string) : M (t * World) unit :=
  r ← self;
  if _icon r then
    try_except Exception
      (outside (IconNotify title message) icon_notify)
      (λ e, log DEBUG "Notification failed: %s")
  else mret tt.

Definition update_hotkey_display (hotkey_name : string) : M (t * World) unit :=
  update (set_hotkey_name hotkey_name);;
  r ← self;
  if _icon r then
    outside IconMenu icon_menu;;
    set_state (_state r)
  else mret tt.

End TrayApp.

(** ** [hotkeys.py]: [class HotkeyManager] *)

Module HotkeyManager.

(** The keys of [pynput.keyboard.Key] that [KEY_MAP] names, and [other] for
    every other key the listener can report. *)
Inductive Key : Type :=
| f1 | f2 | f3 | f4 | f5 | f6 | f7 | f8 | f9 | f10 | f11 | f12
| scroll_lock | pause | insert
| other (name : string).

Global Instance Key_eq_dec : EqDecision Key.
Proof. solve_decision. Defined.

Definition KEY_MAP : gmap string Key :=
  list_to_map
    [ ("f1", f1); ("f2", f2); ("f3", f3); ("f4", f4); ("f5", f5); ("f6", f6);
      ("f7", f7); ("f8", f8); ("f9", f9); ("f10", f10); ("f11", f11);
      ("f12", f12); ("scroll_lock", scroll_lock); ("pause", pause);
      ("insert", insert) ]%string.

Record t : Type := {
  _hotkey_name : string;
  _hotkey : Key;
  _listener : bool;         (* whether a keyboard.Listener is running *)
  _is_held : bool;
  _active : bool;
}.

Definition set_hotkey (name : string) (k : Key) (r : t) : t :=
  {| _hotkey_name := name; _hotkey := k; _listener := _listener r;
     _is_held := _is_held r; _active := _active r |}.
Definition set_listener (v : bool) (r : t) : t :=
  {| _hotkey_name := _hotkey_name r; _hotkey := _hotkey r; _listener := v;
     _is_held := _is_held r; _active := _active r |}.
Definition set_is_held (v : bool) (r : t) : t :=
  {| _hotkey_name := _hotkey_name r; _hotkey := _hotkey r; _listener := _listener r;
     _is_held := v; _active := _active r |}.
Definition set_active (v : bool) (r : t) : t :=
  {| _hotkey_name := _hotkey_name r; _hotkey := _hotkey r; _listener := _listener r;
     _is_held := _is_held r; _active := v |}.

Definition unknown_hotkey (hotkey : string) : exn :=
  ValueError ("Unknown hotkey '" +:+ hotkey +:+ "'.").

Definition __init__ (hotkey : string) : result t :=
  match KEY_MAP !! hotkey with
  | None => Raise (unknown_hotkey hotkey)
  | Some k =>
      Ok {| _hotkey_name := hotkey; _hotkey := k; _listener := false;
            _is_held := false; _active := false |}
  end.

(** The two listener callbacks, for a manager held in a field of the
    application [A] whose methods [on_start] and [on_stop] it calls. *)
Section Callbacks.
Context {A : Type} (get : A → t) (set : t → A → A).
Context (on_start on_stop : M (A * World) unit).

Definition _on_press (key : Key) : M (A * World) unit :=
  a ← self;
  if negb (_active (get a)) then mret tt
  else if bool_decide (key = _hotkey (get a)) && negb (_is_held (get a)) then
    update (λ a, set (set_is_held true (get a)) a);;
    try_except Exception
      on_start
      (λ e, log ERROR "on_start callback error: %s")
  else mret tt.

Definition _on_release (key : Key) : M (A * World) unit :=
  a ← self;
  if negb (_active (get a)) then mret tt
  else if bool_decide (key = _hotkey (get a)) && _is_held (get a) then
    update (λ a, set (set_is_held false (get a)) a);;
    try_except Exception
      on_stop
      (λ e, log ERROR "on_stop callback error: %s")
  else mret tt.

End Callbacks.

Definition start : M (t * World) unit :=
  update (set_active true);;
  update (set_listener true);;
  log INFO "Hotkey listener started (key: %s).".

Definition stop : M (t * World) unit :=
  update (set_active false);;
  update (set_listener false);;
  log INFO "Hotkey listener stopped.".

Definition hotkey_name (r : t) : string := _hotkey_name r.

Definition hotkey_name_setter (value : string) : M (t * World) unit :=
  match KEY_MAP !! value with
  | None => raise (unknown_hotkey value)
  | Some new_key =>
      update (set_hotkey value new_key);;
      update (set_is_held false);;
      log INFO "Hotkey changed to %s."
  end.

End HotkeyManager.

(** ** [app.py]: [class SypherSTT] *)

Module SypherSTT.

(** The configuration dictionary.  [load_config] and the settings window
    both produce exactly these four keys with these types, so the defaults
    of [config.get(key, default)] never apply. *)
Record Config : Type := {
  hotkey : string;
  model : string;
  audio_device : option Z;
  sound_feedback : bool;
}.

Record t : Type := {
  _config : Config;
  _recorder : AudioRecorder.t;
  _transcriber : Transcriber.t;
  _hotkey_manager : HotkeyManager.t;
  _tray : TrayApp.t;
  _processing : bool;
  (* the [_transcribe] threads started and not yet run, oldest first, each
     with the [audio] its closure holds *)
  threads : list ndarray;
  (* the [_transcribe] threads that have released the state lock in their
     [finally] and have not set the state yet, oldest first, each with the
     outcome of its [try] statement *)
  finishing : list (result unit);
}.

Definition set_config (v : Config) (a : t) : t :=
  {| _config := v; _recorder := _recorder a; _transcriber := _transcriber a;
     _hotkey_manager := _hotkey_manager a; _tray := _tray a;
     _processing := _processing a; threads := threads a;
     finishing := finishing a |}.
Definition set_recorder (v : AudioRecorder.t) (a : t) : t :=
  {| _config := _config a; _recorder := v; _transcriber := _transcriber a;
     _hotkey_manager := _hotkey_manager a; _tray := _tray a;
     _processing := _processing a; threads := threads a;
     finishing := finishing a |}.
Definition set_transcriber (v : Transcriber.t) (a : t) : t :=
  {| _config := _config a; _recorder := _recorder a; _transcriber := v;
     _hotkey_manager := _hotkey_manager a; _tray := _tray a;
     _processing := _processing a; threads := threads a;
     finishing := finishing a |}.
Definition set_hotkey_manager (v : HotkeyManager.t) (a : t) : t :=
  {| _config := _config a; _recorder := _recorder a; _transcriber := _transcriber a;
     _hotkey_manager := v; _tray := _tray a;
     _processing := _processing a; threads := threads a;
     finishing := finishing a |}.
Definition set_tray (v : TrayApp.t) (a : t) : t :=
  {| _config := _config a; _recorder := _recorder a; _transcriber := _transcriber a;
     _hotkey_manager := _hotkey_manager a; _tray := v;
     _processing := _processing a; threads := threads a;
     finishing := finishing a |}.
Definition set_processing (v : bool) (a : t) : t :=
  {| _config := _config a; _recorder := _recorder a; _transcriber := _transcriber a;
     _hotkey_manager := _hotkey_manager a; _tray := _tray a;
     _processing := v; threads := threads a; finishing := finishing a |}.
Definition set_threads (v : list ndarray) (a : t) : t :=
  {| _config := _config a; _recorder := _recorder a; _transcriber := _transcriber a;
     _hotkey_manager := _hotkey_manager a; _tray := _tray a;
     _processing := _processing a; threads := v; finishing := finishing a |}.
Definition set_finishing (v : list (result unit)) (a : t) : t :=
  {| _config := _config a; _recorder := _recorder a; _transcriber := _transcriber a;
     _hotkey_manager := _hotkey_manager a; _tray := _tray a;
     _processing := _processing a; threads := threads a; finishing := v |}.

Definition recorder {R} : M (AudioRecorder.t * World) R → M (t * World) R :=
  zoom _recorder set_recorder.
Definition transcriber {R} : M (Transcriber.t * World) R → M (t * World) R :=
  zoom _transcriber set_transcriber.
Definition hotkey_manager {R} : M (HotkeyManager.t * World) R → M (t * World) R :=
  zoom _hotkey_manager set_hotkey_manager.
Definition tray {R} : M (TrayApp.t * World) R → M (t * World) R :=
  zoom _tray set_tray.

(** The state of the coordinator is the state the tray shows. *)
Definition state (a : t) : AppState := TrayApp._state (_tray a).

Definition __init__ (config : Config) (version : string) : result t :=
  match Transcriber.__init__ (model config) with
  | Raise e => Raise e
  | Ok tr =>
      match HotkeyManager.__init__ (hotkey config) with
      | Raise e => Raise e
      | Ok hm =>
          Ok {| _config := config;
                _recorder := AudioRecorder.__init__ (audio_device config);
                _transcriber := tr;
                _hotkey_manager := hm;
                _tray := TrayApp.__init__ (hotkey config) version;
                _processing := false;
                threads := [];
                finishing := [] |}
      end
  end.

Definition _on_hotkey_press : M (t * World) unit :=
  a ← self;
  if _processing a then mret tt
  else
    log INFO "Recording started.";;
    tray (TrayApp.set_state RECORDING);;
    a ← self;
    (if sound_feedback (_config a) then play_start_sound else mret tt);;
    try_except Exception
      (recorder AudioRecorder.start_recording)
      (λ e,
       log ERROR "Failed to start recording: %s";;
       tray (TrayApp.set_state IDLE);;
       tray (TrayApp.notify "Recording Error" (str_exn e));;
       a ← self;
       if sound_feedback (_config a) then play_error_sound else mret tt).

(** The thread that [_on_hotkey_release] starts: its [try] statement
    without the [finally], lines 94 to 105. *)
Definition _transcribe_try (audio : ndarray) : M (t * World) unit :=
  try_except Exception
    (text ← transcriber (Transcriber.transcribe audio);
     if truthy text then
       log INFO "Transcribed %d chars.";;
       paste_text text true
     else log INFO "No speech detected.")
    (λ e,
     log ERROR "Transcription error: %s";;
     tray (TrayApp.notify "Transcription Error" (str_exn e));;
     a ← self;
     if sound_feedback (_config a) then play_error_sound else mret tt).

(** The whole of it, for a thread that nothing interrupts. *)
Definition _transcribe (audio : ndarray) : M (t * World) unit :=
  try_finally
    (_transcribe_try audio)
    (update (set_processing false);;
     tray (TrayApp.set_state IDLE)).

Definition _on_hotkey_release : M (t * World) unit :=
  a ← self;
  if _processing a then mret tt
  else
    update (set_processing true);;
    a ← self;
    (if sound_feedback (_config a) then play_stop_sound else mret tt);;
    log INFO "Recording stopped, transcribing...";;
    tray (TrayApp.set_state TRANSCRIBING);;
    audio ← recorder AudioRecorder.stop_recording;
    (* threading.Thread(target=_transcribe, daemon=True).start() *)
    update (λ a, set_threads (threads a ++ [audio]) a).

Definition _apply_settings (config : Config) : M (t * World) unit :=
  update (set_config config);;
  log INFO "Settings updated.";;
  hotkey_manager (HotkeyManager.hotkey_name_setter (hotkey config));;
  tray (TrayApp.update_hotkey_display (hotkey config));;
  transcriber (Transcriber.model_size_setter (model config));;
  a ← self;
  (if AudioRecorder.is_recording (_recorder a) then
     recorder AudioRecorder.stop_recording;;
     mret tt
   else mret tt);;
  update (set_recorder (AudioRecorder.__init__ (audio_device config))).

(** The body of the thread that [run] starts to load the model early. *)
Definition _preload : M (t * World) unit :=
  try_except Exception
    (transcriber Transcriber.ensure_model;;
     log INFO "Model ready.";;
     tray (TrayApp.notify "Sypher STT" "Model loaded. Ready to transcribe."))
    (λ e,
     log ERROR "Failed to load model: %s";;
     tray (TrayApp.notify "Model Error" (str_exn e))).

(** [run] up to the Tk main loop; the preload thread and the tray thread it
    starts run when the scheduler lets them (events [Preload], [TrayRun]). *)
Definition run : M (t * World) unit :=
  log INFO "Sypher STT v%s starting.";;
  log INFO "Hotkey: %s | Model: %s";;
  hotkey_manager HotkeyManager.start.

(** The listener callbacks as [__init__] wires them. *)
Definition _on_press : HotkeyManager.Key → M (t * World) unit :=
  HotkeyManager._on_press _hotkey_manager set_hotkey_manager _on_hotkey_press.
Definition _on_release : HotkeyManager.Key → M (t * World) unit :=
  HotkeyManager._on_release _hotkey_manager set_hotkey_manager _on_hotkey_release.

(** The oldest started [_transcribe] thread runs up to the release of the
    state lock in its [finally], lines 94 to 108. *)
Definition thread_run : M (t * World) unit :=
  a ← self;
  match threads a with
  | [] => mret tt
  | audio :: rest =>
      update (set_threads rest);;
      r ← attempt (_transcribe_try audio);
      update (set_processing false);;
      update (λ a, set_finishing (finishing a ++ [r]) a)
  end.

(** The oldest thread past the lock runs to its end: line 109, and then
    what its [try] statement left. *)
Definition thread_finish : M (t * World) unit :=
  a ← self;
  match finishing a with
  | [] => mret tt
  | r :: rest =>
      update (set_finishing rest);;
      tray (TrayApp.set_state IDLE);;
      of_result r
  end.

(** What can happen to the running application. *)
Inductive event : Type :=
| KeyPress (key : HotkeyManager.Key)       (* the listener reports a key going down *)
| KeyRelease (key : HotkeyManager.Key)     (* ... and up *)
| AudioBlock (indata : ndarray) (frames : Z) (status : bool)
| ThreadRun                                (* a transcription thread, to the lock *)
| ThreadFinish                             (* ... and from there to its end *)
| Preload
| TrayRun
| SaveSettings (config : Config)
| Outside (e : Env).                       (* the outside changes its answers *)

Definition step (ev : event) (s : t * World) : t * World :=
  match ev with
  | KeyPress key => exec (_on_press key) s
  | KeyRelease key => exec (_on_release key) s
  | AudioBlock indata frames status =>
      exec (recorder (AudioRecorder._audio_callback indata frames status)) s
  | ThreadRun => exec thread_run s
  | ThreadFinish => exec thread_finish s
  | Preload => exec _preload s
  | TrayRun => exec (tray TrayApp.run) s
  | SaveSettings config => exec (_apply_settings config) s
  | Outside e => (s.1, with_env e s.2)
  end.

Definition steps (evs : list event) (s : t * World) : t * World :=
  foldl (λ s ev, step ev s) s evs.

(** The application after [SypherSTT()] and [run], in a world with nothing
    done yet. *)
Definition boot (config : Config) (version : string) (e : Env) : result (t * World) :=
  match __init__ config version with
  | Raise x => Raise x
  | Ok a => Ok (exec run (a, fresh e))
  end.

End SypherSTT.

(** ** Vocabulary of the engine's properties *)

Section EngineVocabulary.
Import Transcriber.

(** Every way [ensure_model] can go. *)
Inductive ensure_model_outcome (tr : t) (w : World) : result unit * (t * World) → Prop :=
| already_loaded m :
    _model tr = Some m →
    ensure_model_outcome tr w (Ok tt, (tr, w))
| not_found :
    _model tr = None → on_disk w tr = false →
    ensure_model_outcome tr w (Raise (model_not_found tr), (tr, w))
| load_failed e :
    _model tr = None → on_disk w tr = true →
    whisper_load (env w) (_get_model_path tr) = Some e →
    ensure_model_outcome tr w (Raise e, (tr, loading tr w))
| loaded :
    _model tr = None → on_disk w tr = true →
    whisper_load (env w) (_get_model_path tr) = None →
    ensure_model_outcome tr w
      (Ok tt,
       (set_model (Some {| model_path := _get_model_path tr |}) tr,
        with_trace
          (trace (loading tr w) ++ [Log INFO "Model '%s' loaded successfully."])
          w)).

End EngineVocabulary.

(** ** Vocabulary of the coordinator's properties *)

(** A computation preserves a property of the object it runs on. *)
Definition preserves {A R} (P : A → Prop) (m : M (A * World) R) : Prop :=
  ∀ s, P s.1 → P (m s).2.1.

(** A computation returns normally from every state. *)
Definition returns {Σ} (m : M Σ unit) : Prop := ∀ s, (m s).1 = Ok tt.

Section CoordinatorVocabulary.
Import SypherSTT.

(** At most one started thread has not cleared the in-flight flag yet,
    and none when the flag is clear; and the state is not [RECORDING]
    while the flag is set. *)
Definition coherent (a : t) : Prop :=
  (length (threads a) ≤ 1)%nat
  ∧ (_processing a = false → threads a = [])
  ∧ (_processing a = true → state a ≠ RECORDING).

(** While the state is [RECORDING] the manager has the key as held. *)
Definition held_while_recording (a : t) : Prop :=
  state a = RECORDING → HotkeyManager._is_held (_hotkey_manager a) = true.

(** The configured model is one of [AVAILABLE_MODELS]. *)
Definition supported (c : Transcriber.t) : Prop :=
  Transcriber._model_size c ∈ AVAILABLE_MODELS.

(** Nothing recorded, nothing in flight, the key not held. *)
Definition at_rest (a : t) : Prop :=
  state a = IDLE ∧ _processing a = false ∧ threads a = []
  ∧ finishing a = []
  ∧ HotkeyManager._is_held (_hotkey_manager a) = false.

(** The flag is set and no thread is there to clear it. *)
Definition stuck (a : t) : Prop :=
  state a = TRANSCRIBING ∧ _processing a = true ∧ threads a = []
  ∧ finishing a = [].

Definition is_KeyPress (ev : event) : bool :=
  match ev with KeyPress _ => true | _ => false end.

Definition is_SaveSettings (ev : event) : bool :=
  match ev with SaveSettings _ => true | _ => false end.

End CoordinatorVocabulary.

(** ** Worlds and inputs for the examples *)

(** An outside where every call succeeds, the [base.en] model is installed
    and recognises two segments. *)
Definition calm : Env :=
  {| pa_open := None; pa_start := None; pa_stop := None; pa_close := None;
     files := {[ ["models"; "base.en"]%string;
                 ["models"; "base.en"; "model.bin"]%string ]};
     whisper_load := λ _, None;
     whisper_run := λ _ _, Ok [" hello"; "world "]%string;
     clip_text_only := true; clip_paste := Ok "before"%string;
     clip_copy := None; send_keys := None;
     icon_update := λ _, None; icon_menu := None; icon_notify := None |}.

(** The same outside with no microphone. *)
Definition deaf : Env :=
  {| pa_open := Some (PortAudioError "Error opening InputStream");
     pa_start := None; pa_stop := None; pa_close := None;
     files := files calm;
     whisper_load := whisper_load calm;
     whisper_run := whisper_run calm;
     clip_text_only := true; clip_paste := Ok "before"%string;
     clip_copy := None; send_keys := None;
     icon_update := λ _, None; icon_menu := None; icon_notify := None |}.

Definition defaults : SypherSTT.Config :=
  {| SypherSTT.hotkey := DEFAULT_HOTKEY; SypherSTT.model := DEFAULT_MODEL;
     SypherSTT.audio_device := None; SypherSTT.sound_feedback := true |}.

(** What was sent to the clipboard, and what the tray was asked to show,
    oldest first. *)
Definition pasted (w : World) : list string :=
  omap (λ e, match e with ClipboardCopy text => Some text | _ => None end)
    (trace w).

Definition notified (w : World) : list (string * string) :=
  omap (λ e, match e with IconNotify title message => Some (title, message)
                     | _ => None end)
    (trace w).

(** What is left of a run of the application started with the default
    configuration: the state, the in-flight flag, the texts pasted, the
    notifications, the models loaded and the inferences run. *)
Definition outcome (e : Env) (evs : list SypherSTT.event)
    : option (AppState * bool * list string * list (string * string) * nat * nat) :=
  match SypherSTT.boot defaults "1.0" e with
  | Ok s0 =>
      let s := SypherSTT.steps evs s0 in
      Some (SypherSTT.state s.1, SypherSTT._processing s.1,
            pasted s.2, notified s.2, loads s.2, inferences s.2)
  | Raise _ => None
  end.

(** [n] samples of silence. *)
Definition silence (n : nat) : ndarray := repeat 0 n.

(** The same outside as [calm] with a tray icon that cannot be
    redrawn. *)
Definition brittle : Env :=
  {| pa_open := None; pa_start := None; pa_stop := None; pa_close := None;
     files := files calm;
     whisper_load := whisper_load calm;
     whisper_run := whisper_run calm;
     clip_text_only := true; clip_paste := Ok "before"%string;
     clip_copy := None; send_keys := None;
     icon_update := λ _, Some (OtherError "OSError" "icon update failed");
     icon_menu := None; icon_notify := None |}.

(** A session that is never stopped: 1876 blocks of the [BLOCK_SIZE]
    frames the stream is opened with, one more than the cap holds. *)
Definition full_session : list AudioRecorder.event :=
  AudioRecorder.Start
  :: repeat (AudioRecorder.Block (silence 1024) 1024 false) 1876.


(** ** Vocabulary of the recorder's properties *)

Section RecorderVocabulary.
Import AudioRecorder.

Definition cap : Z := SAMPLE_RATE * MAX_RECORDING_SECONDS.

(** The size of the block an event delivers. *)
Definition frames_of (ev : event) : option Z :=
  match ev with Block _ frames _ => Some frames | _ => None end.

(** A block whose [frames] is the length of its data. *)
Definition well_formed (ev : event) : Prop :=
  match ev with Block indata frames _ => frames = size indata | _ => True end.

(** A stream opened at [SAMPLE_RATE], in blocks of [BLOCK_SIZE] frames;
    every other call passes. *)
Definition opened_as_configured (e : effect) : Prop :=
  match e with
  | PaOpen _ samplerate _ blocksize _ =>
      samplerate = SAMPLE_RATE ∧ blocksize = BLOCK_SIZE
  | _ => True
  end.

(** A block as the stream of [start_recording] delivers it: [BLOCK_SIZE]
    frames, one sample each. *)
Definition delivered (ev : event) : Prop :=
  match ev with
  | Block indata frames _ => frames = BLOCK_SIZE ∧ size indata = frames
  | _ => True
  end.

(** The count is a multiple of the block size and at most the cap. *)
Definition aligned (r : t) : Prop :=
  (BLOCK_SIZE | _samples_recorded r) ∧ _samples_recorded r ≤ cap
  ∧ (_recording r = true → _samples_recorded r < cap).

(** The chunks held are no longer than the count says. *)
Definition counted (r : t) : Prop :=
  0 ≤ _samples_recorded r ∧ size (np_concatenate (_chunks r)) ≤ _samples_recorded r.

End RecorderVocabulary.


(** * More of the code: devices, configuration, local models, the listener *)

(** ** [audio.py]: [AudioRecorder.list_devices], and its twin
    [SettingsWindow._get_input_devices] of [settings.py] *)

(** An entry of [sd.query_devices()], with the two keys the code reads. *)
Record DeviceInfo : Type := {
  name : string;
  max_input_channels : Z;
}.

(** [for i, dev in enumerate(devices)], from position [i] on. *)
Fixpoint list_devices_from (i : nat) (devices : list DeviceInfo)
    : list (nat * string) :=
  match devices with
  | [] => []
  | dev :: rest =>
      if bool_decide (0 < max_input_channels dev)
      then (i, name dev) :: list_devices_from (S i) rest
      else list_devices_from (S i) rest
  end.

(** The pairs stand for [{"index": i, "name": dev["name"]}]. *)
Definition list_devices (devices : list DeviceInfo) : list (nat * string) :=
  list_devices_from 0 devices.

(** ** [settings.py]: the microphone choice of [show] and [_save] *)

Module SettingsWindow.

Definition _get_input_devices : list DeviceInfo → list (nat * string) :=
  list_devices.

(** [names.index(x)], for an [x] that is in [names]. *)
Fixpoint index (x : string) (names : list string) : nat :=
  match names with
  | [] => 0
  | y :: rest => if bool_decide (x = y) then 0%nat else S (index x rest)
  end.

(** What [show] builds from the devices it sees: the names offered and the
    index behind each. *)
Definition device_names (devices : list DeviceInfo) : list string :=
  "System Default"%string :: (snd <$> _get_input_devices devices).

Definition _device_indices (devices : list DeviceInfo) : list (option nat) :=
  None :: (Some ∘ fst <$> _get_input_devices devices).

(** The name [show] preselects for the configured device. *)
Definition current_name (current_device : option nat)
    (devices : list DeviceInfo) : string :=
  match current_device with
  | None => "System Default"%string
  | Some current =>
      let matches :=
        snd <$> List.filter (λ d, bool_decide (d.1 = current))
                  (_get_input_devices devices) in
      match matches with
      | n :: _ => n
      | [] => "System Default"%string
      end
  end.

(** The ["audio_device"] that [_save] stores: [device_name] is the name
    chosen, [devices] what [sd.query_devices()] answers now, [indices] the
    [_device_indices] that [show] kept. *)
Definition device_index (device_name : string) (devices : list DeviceInfo)
    (indices : list (option nat)) : option nat :=
  let device_names_list := device_names devices in
  let idx_in_list :=
    if bool_decide (device_name ∈ device_names_list)
    then index device_name device_names_list
    else 0%nat in
  if bool_decide (idx_in_list < length indices)%nat
  then default None (indices !! idx_in_list)
  else None.

End SettingsWindow.

(** ** [config.py] *)

Module config.

(** A value of the dictionary [json.load] returns, as far as the code looks
    at it: its type, and its content where the code compares or copies it.
    Lists and nested objects are never looked into. *)
Inductive pyvalue : Type :=
| PNone
| PBool (b : bool)
| PInt (z : Z)
| PFloat
| PStr (s : string)
| PList
| PDict.

Global Instance pyvalue_eq_dec : EqDecision pyvalue.
Proof. solve_decision. Defined.

(** What reading [CONFIG_PATH] gives. *)
Inductive stored : Type :=
| Missing                       (* CONFIG_PATH.exists() is false *)
| Unreadable (msg : string)     (* open(...) raises OSError *)
| Undecodable (msg : string)    (* the file is not UTF-8: UnicodeDecodeError *)
| Malformed (msg : string)      (* json.load raises JSONDecodeError *)
| NotADict                      (* valid JSON that is not an object *)
| Saved (d : gmap string pyvalue).

(** The file and whether it can be written ([Some msg]: [open(..., "w")]
    raises [OSError]).  What [json.dump] writes, [json.load] reads back. *)
Record t : Type := {
  content : stored;
  write_error : option string;
}.

Definition set_content (v : stored) (f : t) : t :=
  {| content := v; write_error := write_error f |}.

Definition DEFAULT_CONFIG : gmap string pyvalue :=
  {[ "hotkey" := PStr DEFAULT_HOTKEY;
     "model" := PStr DEFAULT_MODEL;
     "audio_device" := PNone;
     "sound_feedback" := PBool true ]}%string.

(** [except (json.JSONDecodeError, IOError)]; [IOError] is [OSError]. *)
Definition JSONDecodeError_or_IOError (e : exn) : bool :=
  match e with
  | FileNotFoundError _ => true
  | OtherError cls _ =>
      bool_decide (cls = "JSONDecodeError" ∨ cls = "OSError")%string
  | _ => false
  end.

(** [with open(CONFIG_PATH, "r", encoding="utf-8") as f: json.load(f)],
    once the path exists. *)
Definition read_json : M (t * World) (option (gmap string pyvalue)) :=
  f ← self;
  match content f with
  | Missing => raise (FileNotFoundError "config.json")
  | Unreadable msg => raise (OtherError "OSError" msg)
  | Undecodable msg => raise (OtherError "UnicodeDecodeError" msg)
  | Malformed msg => raise (OtherError "JSONDecodeError" msg)
  | NotADict => mret None
  | Saved d => mret (Some d)
  end.

(** [v in KEY_MAP]: hashing a list or a dict raises. *)
Definition in_KEY_MAP (v : pyvalue) : result bool :=
  match v with
  | PStr s => Ok (bool_decide (is_Some (HotkeyManager.KEY_MAP !! s)))
  | PList => Raise (OtherError "TypeError" "unhashable type: 'list'")
  | PDict => Raise (OtherError "TypeError" "unhashable type: 'dict'")
  | _ => Ok false
  end.

(** [v in AVAILABLE_MODELS]: equality with each string of the list. *)
Definition in_AVAILABLE_MODELS (v : pyvalue) : bool :=
  match v with
  | PStr s => bool_decide (s ∈ AVAILABLE_MODELS)
  | _ => false
  end.

(** [isinstance(v, int)]: [bool] is a subclass of [int]. *)
Definition isinstance_int (v : pyvalue) : bool :=
  match v with PInt _ | PBool _ => true | _ => false end.

Definition isinstance_bool (v : pyvalue) : bool :=
  match v with PBool _ => true | _ => false end.

(** [saved.get(key)] and [saved[key]]. *)
Definition get (saved : gmap string pyvalue) (key : string) : pyvalue :=
  default PNone (saved !! key).

Definition getitem {Σ} (saved : gmap string pyvalue) (key : string)
    : M Σ pyvalue :=
  match saved !! key with
  | Some v => mret v
  | None => raise (OtherError "KeyError" key)
  end.

Definition load_config : M (t * World) (gmap string pyvalue) :=
  f ← self;
  match content f with
  | Missing => mret DEFAULT_CONFIG
  | _ =>
      loaded ←
        try_except JSONDecodeError_or_IOError
          (saved ← read_json;
           match saved with
           | None =>
               log WARNING "Config file is not a dict, using defaults.";;
               mret (Some DEFAULT_CONFIG)
           | Some saved =>
               let config := DEFAULT_CONFIG in
               known ← of_result (in_KEY_MAP (get saved "hotkey"));
               config ←
                 (if known : bool then
                    v ← getitem saved "hotkey";
                    mret (<["hotkey" := v]> config)
                  else mret config);
               config ←
                 (if in_AVAILABLE_MODELS (get saved "model") then
                    v ← getitem saved "model";
                    mret (<["model" := v]> config)
                  else mret config);
               config ←
                 (if bool_decide (get saved "audio_device" = PNone)
                     || isinstance_int (get saved "audio_device") then
                    v ← getitem saved "audio_device";
                    mret (<["audio_device" := v]> config)
                  else mret config);
               config ←
                 (if isinstance_bool (get saved "sound_feedback") then
                    v ← getitem saved "sound_feedback";
                    mret (<["sound_feedback" := v]> config)
                  else mret config);
               log DEBUG "Loaded config from %s";;
               mret (Some config)
           end)
          (λ e,
           log WARNING "Failed to load config (%s), using defaults.";;
           mret None);
      match loaded with
      | Some config => mret config
      | None => mret DEFAULT_CONFIG
      end
  end.

Definition save_config (config : gmap string pyvalue) : M (t * World) unit :=
  try_except JSONDecodeError_or_IOError
    (f ← self;
     match write_error f with
     | Some msg => raise (OtherError "OSError" msg)
     | None => update (set_content (Saved config))
     end;;
     log DEBUG "Saved config to %s")
    (λ e, log ERROR "Failed to save config: %s").

(** The dictionary [SettingsWindow._save] builds. *)
Definition of_Config (c : SypherSTT.Config) : gmap string pyvalue :=
  {[ "hotkey" := PStr (SypherSTT.hotkey c);
     "model" := PStr (SypherSTT.model c);
     "audio_device" :=
       match SypherSTT.audio_device c with
       | Some i => PInt i
       | None => PNone
       end;
     "sound_feedback" := PBool (SypherSTT.sound_feedback c) ]}%string.

(** The four values the application reads with [config.get(key, default)],
    when they have the types it expects of them; [True] and [False] are
    the device numbers 1 and 0. *)
Definition to_Config (d : gmap string pyvalue) : option SypherSTT.Config :=
  match default (PStr DEFAULT_HOTKEY) (d !! "hotkey"%string),
        default (PStr DEFAULT_MODEL) (d !! "model"%string),
        default (PBool true) (d !! "sound_feedback"%string) with
  | PStr h, PStr m, PBool sound =>
      match get d "audio_device" with
      | PNone =>
          Some {| SypherSTT.hotkey := h; SypherSTT.model := m;
                  SypherSTT.audio_device := None;
                  SypherSTT.sound_feedback := sound |}
      | PInt i =>
          Some {| SypherSTT.hotkey := h; SypherSTT.model := m;
                  SypherSTT.audio_device := Some i;
                  SypherSTT.sound_feedback := sound |}
      | PBool b =>
          Some {| SypherSTT.hotkey := h; SypherSTT.model := m;
                  SypherSTT.audio_device := Some (Z.b2z b);
                  SypherSTT.sound_feedback := sound |}
      | _ => None
      end
  | _, _, _ => None
  end.

(** What the docstring of [load_config] promises of a configuration: the
    four keys and no other, a hotkey of [KEY_MAP], a model of
    [AVAILABLE_MODELS], a device that is [None] or an [int], a [bool]. *)
Definition whitelisted (d : gmap string pyvalue) : Prop :=
  (∃ h, d !! "hotkey"%string = Some (PStr h)
        ∧ is_Some (HotkeyManager.KEY_MAP !! h))
  ∧ (∃ m, d !! "model"%string = Some (PStr m) ∧ m ∈ AVAILABLE_MODELS)
  ∧ (∃ v, d !! "audio_device"%string = Some v
          ∧ (v = PNone ∨ isinstance_int v = true))
  ∧ (∃ b, d !! "sound_feedback"%string = Some (PBool b))
  ∧ ∀ k, is_Some (d !! k)
         → k ∈ ["hotkey"; "model"; "audio_device"; "sound_feedback"]%string.

End config.

(** ** [transcriber.py]: the model in memory and the name configured *)

(** The model in memory, when there is one, was loaded from the directory
    of the configured name. *)
Definition up_to_date (tr : Transcriber.t) : Prop :=
  ∀ m, Transcriber._model tr = Some m
       → Transcriber.model_path m = Transcriber._get_model_path tr.

(** ** [transcriber.py]: [get_local_models] *)

(** The name of [p] when [p] is an entry of the directory [dir]. *)
Definition child_of (dir p : path) : option string :=
  match drop (length dir) p with
  | [n] => if bool_decide (p = path_div dir n) then Some n else None
  | _ => None
  end.

(** [d.name for d in dir.iterdir()], in the order the file system gives. *)
Definition iterdir (w : World) (dir : path) : list string :=
  omap (child_of dir) (elements (files (env w))).

(** [is_dir] is what [Path.is_dir()] answers; [sorted] compares strings
    code point by code point, which on UTF-8 is byte by byte. *)
Definition get_local_models (w : World) (is_dir : path → bool) : list string :=
  if negb (Transcriber.path_exists w MODELS_DIR) then []
  else
    merge_sort String.le
      (List.filter
         (λ n, is_dir (path_div MODELS_DIR n)
               && Transcriber.path_exists w
                    (path_div (path_div MODELS_DIR n) "model.bin"))
         (iterdir w MODELS_DIR)).

(** ** [tray.py]: what the icon shows *)

Module Tray.

(** What the owner of the tray does with it. *)
Inductive command : Type :=
| SetState (state : AppState)
| Notify (title message : string)
| UpdateHotkeyDisplay (hotkey_name : string)
| Run
| Answers (e : Env).

Definition run_command (c : command) (s : TrayApp.t * World) : TrayApp.t * World :=
  match c with
  | SetState state => exec (TrayApp.set_state state) s
  | Notify title message => exec (TrayApp.notify title message) s
  | UpdateHotkeyDisplay hotkey_name =>
      exec (TrayApp.update_hotkey_display hotkey_name) s
  | Run => exec TrayApp.run s
  | Answers e => (s.1, with_env e s.2)
  end.

Definition run_commands (cs : list command) (s : TrayApp.t * World)
    : TrayApp.t * World :=
  foldl (λ s c, run_command c s) s cs.

(** The state whose image the icon was given last. *)
Definition shown (w : World) : option AppState :=
  last (omap (λ e, match e with IconUpdate state => Some state | _ => None end)
          (trace w)).

(** The icon exists and shows the state of the tray. *)
Definition in_step (s : TrayApp.t * World) : Prop :=
  TrayApp._icon s.1 = true ∧ shown s.2 = Some (TrayApp._state s.1).

End Tray.

(** ** A listener on its own: [HotkeyManager] with callbacks that record
    their calls *)

Module Probe.

Inductive signal : Type := Started | Stopped.

Global Instance signal_eq_dec : EqDecision signal.
Proof. solve_decision. Defined.

(** The manager and the calls its callbacks have seen, oldest first. *)
Definition t : Type := HotkeyManager.t * list signal.

(** A callback records its call and then raises what it is told to. *)
Definition callback (sig : signal) (error : option exn) : M (t * World) unit :=
  update (λ a, (a.1, a.2 ++ [sig]));;
  match error with
  | Some e => raise e
  | None => mret tt
  end.

Inductive key_event : Type :=
| Down (key : HotkeyManager.Key)
| Up (key : HotkeyManager.Key).

Definition deliver (start_error stop_error : option exn) (ev : key_event)
    : M (t * World) unit :=
  match ev with
  | Down key =>
      HotkeyManager._on_press fst (λ m a, (m, a.2))
        (callback Started start_error) key
  | Up key =>
      HotkeyManager._on_release fst (λ m a, (m, a.2))
        (callback Stopped stop_error) key
  end.

Definition deliver_all (start_error stop_error : option exn)
    (evs : list key_event) (s : t * World) : t * World :=
  foldl (λ s ev, exec (deliver start_error stop_error ev) s) s evs.

(** What the owner of a manager does with it besides: the property setter
    and the two switches. *)
Inductive command : Type :=
| Event (ev : key_event)
| SetHotkeyName (value : string)
| Start
| Stop.

Definition manager {R} : M (HotkeyManager.t * World) R → M (t * World) R :=
  zoom fst (λ m a, (m, a.2)).

Definition run_command (start_error stop_error : option exn) (c : command)
    : M (t * World) unit :=
  match c with
  | Event ev => deliver start_error stop_error ev
  | SetHotkeyName value => manager (HotkeyManager.hotkey_name_setter value)
  | Start => manager HotkeyManager.start
  | Stop => manager HotkeyManager.stop
  end.

Definition run_commands (start_error stop_error : option exn)
    (cs : list command) (s : t * World) : t * World :=
  foldl (λ s c, exec (run_command start_error stop_error c) s) s cs.

Definition is_SetHotkeyName (c : command) : bool :=
  match c with SetHotkeyName _ => true | _ => false end.

(** The names of [KEY_MAP] among those the commands set, oldest first. *)
Definition names_set (cs : list command) : list string :=
  omap (λ c, match c with
             | SetHotkeyName value =>
                 match HotkeyManager.KEY_MAP !! value with
                 | Some _ => Some value
                 | None => None
                 end
             | _ => None
             end) cs.

(** Whether the calls alternate, [Started] first; the answer says whether
    a [Started] is the last of them. *)
Fixpoint alternate (held : bool) (calls : list signal) : option bool :=
  match calls with
  | [] => Some held
  | Started :: rest => if held then None else alternate true rest
  | Stopped :: rest => if held then alternate false rest else None
  end.

End Probe.

(** ** One more world for the examples *)

(** An outside where the microphone opens but its stream does not
    start. *)
Definition stalled : Env :=
  {| pa_open := None;
     pa_start := Some (PortAudioError "Error starting stream");
     pa_stop := None; pa_close := None;
     files := files calm;
     whisper_load := whisper_load calm;
     whisper_run := whisper_run calm;
     clip_text_only := true; clip_paste := Ok "before"%string;
     clip_copy := None; send_keys := None;
     icon_update := λ _, None; icon_menu := None; icon_notify := None |}.
(** * Properties *)

(** Unfolds the monad and the access to the object and the world, so that a
    method applied to a state reduces to the state it leaves. *)
Ltac run_monad :=
  cbv [mbind mret M_bind M_ret raise gets modify try_except try_finally exec
       self world update emit log outside zoom Exception
       sd_InputStream stream_start stream_stop stream_close];
  cbn.

Ltac in_calls :=
  apply list_elem_of_In; cbn; tauto.

Ltac not_in_calls :=
  let H := fresh in
  intros H; apply list_elem_of_In in H; cbn in H; intuition discriminate.

Lemma foldl_invariant {A B} (f : A → B → A) (P : A → Prop) (Q : B → Prop) :
  (∀ a b, Q b → P a → P (f a b)) →
  ∀ l a, Forall Q l → P a → P (foldl f a l).
Proof.
  intros Hstep l. induction l as [|b l IH]; intros a Hl Ha; [done|].
  inversion Hl; subst. cbn. apply IH; auto.
Qed.


(** ** The recorder *)

Section Recorder.
Import AudioRecorder.

Lemma cap_value : cap = 1920000.
Proof. reflexivity. Qed.

Lemma cap_blocks : cap = BLOCK_SIZE * 1875.
Proof. reflexivity. Qed.

Lemma size_concatenate_snoc (chunks : list ndarray) (a : ndarray) :
  size (np_concatenate (chunks ++ [a])) = size (np_concatenate chunks) + size a.
Proof.
  unfold size, np_concatenate.
  rewrite concat_app, length_app. cbn. rewrite app_nil_r. lia.
Qed.

Lemma callback_returns indata frames status (s : t * World) :
  (_audio_callback indata frames status s).1 = Ok tt.
Proof.
  destruct s as [[d c n st rec] w]. unfold _audio_callback. run_monad.
  destruct status, rec; cbn; try done; case_bool_decide; done.
Qed.

(** The recorder a block leaves, case by case. *)
Lemma callback_state indata frames status (r : t) (w : World) :
  (exec (_audio_callback indata frames status) (r, w)).1 =
    if _recording r then
      {| _device := _device r;
         _chunks := _chunks r ++ [indata];
         _samples_recorded := _samples_recorded r + frames;
         _stream := _stream r;
         _recording := bool_decide (_samples_recorded r + frames < cap) |}
    else r.
Proof.
  destruct r as [d c n st rec]. unfold _audio_callback. run_monad.
  destruct status, rec; cbn; try done;
    fold cap; repeat case_bool_decide; try lia; done.
Qed.

Lemma start_state (r : t) (w : World) :
  let r' := (exec start_recording (r, w)).1 in
  _chunks r' = [] ∧ _samples_recorded r' = 0.
Proof.
  unfold start_recording. run_monad.
  destruct (pa_open (env w)) as [e|]; cbn.
  - destruct (is_PortAudioError e); done.
  - destruct (pa_start (env w)) as [e|]; cbn; [|done].
    destruct (is_PortAudioError e); done.
Qed.

Lemma stop_state (r : t) (w : World) :
  let r' := (exec stop_recording (r, w)).1 in
  _chunks r' = [] ∧ _samples_recorded r' = _samples_recorded r
  ∧ _recording r' = false ∧ _stream r' = None.
Proof.
  unfold stop_recording. run_monad.
  destruct r as [d c n [h|] rec]; cbn.
  - destruct (pa_stop (env w)); cbn.
    + destruct c; done.
    + destruct (pa_close (env w)); cbn; destruct c; done.
  - destruct c; done.
Qed.

Lemma aligned_step (ev : event) (s : t * World) :
  (∀ f, frames_of ev = Some f → f = BLOCK_SIZE) →
  aligned s.1 → aligned (step ev s).1.
Proof.
  intros Hf (Hdiv & Hle & Hrec). destruct s as [r w]. unfold aligned in *. cbn in *.
  destruct ev as [| |indata frames status|e]; cbn.
  - destruct (start_state r w) as [_ ->]. rewrite cap_value.
    split; [apply Z.divide_0_r|]. split; [lia | intros; lia].
  - destruct (stop_state r w) as (_ & -> & -> & _). done.
  - rewrite callback_state. rewrite (Hf frames eq_refl).
    destruct (_recording r) eqn:Hr; cbn; [|repeat split; [done..|congruence]].
    specialize (Hrec eq_refl).
    destruct Hdiv as [k Hk]. rewrite cap_blocks in *.
    split; [exists (k + 1); lia|].
    split; [unfold BLOCK_SIZE in *; lia|].
    intros H. apply bool_decide_eq_true in H. done.
  - auto.
Qed.

Lemma counted_step (ev : event) (s : t * World) :
  well_formed ev → counted s.1 → counted (step ev s).1.
Proof.
  intros Hwf [Hpos Hlen]. destruct s as [r w]. unfold counted in *. cbn in *.
  destruct ev as [| |indata frames status|e]; cbn.
  - destruct (start_state r w) as [-> ->]. done.
  - destruct (stop_state r w) as (-> & -> & _). done.
  - rewrite callback_state. cbn in Hwf.
    destruct (_recording r); cbn; [|auto].
    rewrite size_concatenate_snoc. unfold size in *. lia.
  - auto.
Qed.


Lemma steps_invariant (P : t → Prop) (Q : event → Prop) :
  (∀ ev s, Q ev → P s.1 → P (step ev s).1) →
  ∀ evs s, Forall Q evs → P s.1 → P (steps evs s).1.
Proof.
  intros Hstep evs s Hevs Hs. unfold steps.
  apply (foldl_invariant (λ s ev, step ev s) (λ s, P s.1) Q); auto.
Qed.

Ltac walk_trace H :=
  repeat (apply elem_of_app in H as [H|H]);
  [by left|
   try (apply list_elem_of_singleton in H as ->; by right)..].

Lemma step_opens (ev : event) (s : t * World) (e : effect) :
  e ∈ trace (step ev s).2 → e ∈ trace s.2 ∨ opened_as_configured e.
Proof.
  destruct s as [[d c n st rec] w].
  destruct ev as [| |indata frames status|x]; cbn [step snd];
    unfold exec, start_recording, stop_recording, _audio_callback;
    run_monad; [| | |by left].
  - destruct (pa_open (env w)) as [x|]; cbn.
    + destruct (is_PortAudioError x); cbn; intros Hin; walk_trace Hin.
    + destruct (pa_start (env w)) as [x|]; cbn;
        [destruct (is_PortAudioError x); cbn|]; intros Hin; walk_trace Hin.
  - destruct st as [h|]; cbn;
      [destruct (pa_stop (env w)); cbn;
       [|destruct (pa_close (env w)); cbn]|];
      destruct c; cbn; intros Hin; walk_trace Hin.
  - destruct status, rec; cbn; try (by left);
      try case_bool_decide; cbn; intros Hin; walk_trace Hin.
Qed.

Lemma steps_opens (evs : list event) (s : t * World) (e : effect) :
  e ∈ trace (steps evs s).2 → e ∈ trace s.2 ∨ opened_as_configured e.
Proof.
  unfold steps. induction evs as [|ev evs IH] using rev_ind; [by left|].
  rewrite foldl_app. cbn [foldl]. intros [Hin|Hin]%step_opens; [|by right].
  by apply IH.
Qed.

(** C2.  Whatever is done to a recorder, with the blocks of a stream it
    opened, the sample count never exceeds [SAMPLE_RATE] times
    [MAX_RECORDING_SECONDS], nor do the samples held; capture is off
    once the count has reached that bound, turned off by the very
    callback that reached it; and the callback returns normally, always.
    The streams are those of [start_recording]: each is opened in blocks
    of [BLOCK_SIZE] frames, and 1024 divides 1920000. *)
Theorem sample_count_bounded (device : option Z) (w : World)
    (evs : list event) :
  Forall delivered evs →
  let s := steps evs (__init__ device, w) in
  _samples_recorded s.1 ≤ SAMPLE_RATE * MAX_RECORDING_SECONDS
  ∧ size (np_concatenate (_chunks s.1)) ≤ _samples_recorded s.1
  ∧ (_recording s.1 = true →
     _samples_recorded s.1 < SAMPLE_RATE * MAX_RECORDING_SECONDS)
  ∧ (∀ e, e ∈ trace s.2 → e ∈ trace w ∨ opened_as_configured e)
  ∧ (∀ indata frames status s',
       (_audio_callback indata frames status s').1 = Ok tt)
  ∧ (∀ indata frames status r0 w0,
       _recording r0 = true →
       SAMPLE_RATE * MAX_RECORDING_SECONDS ≤ _samples_recorded r0 + frames →
       _recording (exec (_audio_callback indata frames status) (r0, w0)).1
       = false).
Proof.
  intros Hevs. cbv zeta. fold cap.
  assert (Ha : aligned (steps evs (__init__ device, w)).1).
  { apply (steps_invariant aligned
             (λ ev, ∀ f, frames_of ev = Some f → f = BLOCK_SIZE)).
    - intros ev s Hq Hp. by apply aligned_step.
    - eapply Forall_impl; [exact Hevs|].
      intros [| |indata frames status|x] Hd f Hf; try discriminate.
      injection Hf as <-. by destruct Hd.
    - unfold aligned. cbn. rewrite ?cap_value. split; [apply Z.divide_0_r|].
      split; [lia | intros; lia]. }
  assert (Hc : counted (steps evs (__init__ device, w)).1).
  { apply (steps_invariant counted well_formed); [| |done].
    - intros ev s Hq Hp. by apply counted_step.
    - eapply Forall_impl; [exact Hevs|].
      intros [| |indata frames status|x] Hd; try done. by destruct Hd. }
  destruct Ha as (_ & Hle & Hrec). destruct Hc as [_ Hsize].
  split; [done|]. split; [done|]. split; [done|]. split; [|split].
  - intros e. apply steps_opens.
  - apply callback_returns.
  - intros indata frames status r0 w0 Hr Hcap.
    rewrite callback_state, Hr. cbn. apply bool_decide_eq_false. lia.
Qed.

(** The bound at work on a session that is never stopped: the 1875th
    block brings the count to the bound and turns capture off, and the
    block after it is not counted. *)
Lemma sample_count_bounded_witness :
  _samples_recorded (steps full_session (__init__ None, fresh calm)).1
  ≤ SAMPLE_RATE * MAX_RECORDING_SECONDS
  ∧ _samples_recorded (steps full_session (__init__ None, fresh calm)).1
    = 1920000
  ∧ _recording (steps full_session (__init__ None, fresh calm)).1 = false.
Proof.
  split; [|split; vm_compute; reflexivity].
  refine (proj1 (sample_count_bounded None (fresh calm) full_session _)).
  constructor; [done|]. apply Forall_forall. intros ev Hin.
  apply list_elem_of_In, repeat_spec in Hin. subst ev. done.
Defined.

(** What [stop_recording] returns and leaves, in every state. *)
Lemma stop_recording_spec (r : t) (w : World) :
  ∃ r' w',
    stop_recording (r, w) = (Ok (np_concatenate (_chunks r)), (r', w'))
    ∧ _recording r' = false
    ∧ _stream r' = None
    ∧ ∃ calls, trace w' = trace w ++ calls
        ∧ match _stream r with
          | Some h =>
              PaStop h ∈ calls ∧ (pa_stop (env w) = None → PaClose h ∈ calls)
          | None => ∀ h, (PaStop h ∉ calls) ∧ (PaClose h ∉ calls)
          end.
Proof.
  revert r w.
  intros [d c n st rec] w. unfold stop_recording. run_monad.
  destruct st as [h|]; cbn.
  - destruct (pa_stop (env w)) as [e|] eqn:Hstop; cbn.
    + destruct c; cbn; do 2 eexists; (split; [reflexivity|]);
        (split; [done|]); (split; [done|]); eexists;
        (split; [by rewrite <- ?app_assoc|]);
        (split; [in_calls|discriminate]).
    + destruct (pa_close (env w)) as [e|]; cbn;
        destruct c; cbn; do 2 eexists; (split; [reflexivity|]);
        (split; [done|]); (split; [done|]); eexists;
        (split; [by rewrite <- ?app_assoc|]);
        (split; [in_calls|intros _; in_calls]).
  - destruct c; cbn; do 2 eexists; (split; [reflexivity|]);
      (split; [done|]); (split; [done|]).
    + exists []. rewrite app_nil_r. split; [done|].
      intros h. split; apply not_elem_of_nil.
    + eexists. split; [reflexivity|].
      intros h. split; intros Hin; apply list_elem_of_In in Hin;
        cbn in Hin; intuition discriminate.
Qed.

(** C6.  [stop_recording] returns normally in every state of the recorder
    and whatever PortAudio answers: capture is off afterwards, the stream
    held (if any) is stopped and then closed (an error of [stop] or
    [close] is logged and swallowed) and let go of, and the value returned
    is the concatenation of the chunks held, the empty array when there
    are none.  In particular it returns the empty array on a recorder
    that was never started and after a [start_recording] that raised. *)
Theorem stop_recording_always_succeeds (r : t) (w : World) (device : option Z) :
  (∃ r' w',
     stop_recording (r, w) = (Ok (np_concatenate (_chunks r)), (r', w'))
     ∧ _recording r' = false
     ∧ _stream r' = None
     ∧ ∃ calls, trace w' = trace w ++ calls
         ∧ match _stream r with
           | Some h =>
               PaStop h ∈ calls ∧ (pa_stop (env w) = None → PaClose h ∈ calls)
           | None => ∀ h, (PaStop h ∉ calls) ∧ (PaClose h ∉ calls)
           end)
  ∧ (_chunks r = [] → (stop_recording (r, w)).1 = Ok [])
  ∧ (stop_recording (__init__ device, w)).1 = Ok []
  ∧ (∀ e s, start_recording (r, w) = (Raise e, s) →
       (stop_recording s).1 = Ok []).
Proof.
  pose proof stop_recording_spec as Hmain.
  split; [apply Hmain|].
  assert (Hempty : ∀ r w, _chunks r = [] → (stop_recording (r, w)).1 = Ok []).
  { clear -Hmain. intros r w Hc.
    destruct (Hmain r w) as (r' & w' & -> & _). by rewrite Hc. }
  split; [apply Hempty|]. split; [by apply Hempty|].
  intros e [r1 w1] Hstart. apply Hempty.
  pose proof (start_state r w) as [Hc _].
  unfold exec in Hc. by rewrite Hstart in Hc.
Qed.

(** C10.  [stop_recording] drains the session: it leaves no chunk behind,
    so a second call, with no start and no block in between and whatever
    the outside answers by then, returns the empty array and changes
    nothing. *)
Theorem stop_recording_drains (r : t) (w : World) (e : Env) :
  let s := exec stop_recording (r, w) in
  _chunks s.1 = []
  ∧ stop_recording (s.1, with_env e s.2) = (Ok [], (s.1, with_env e s.2)).
Proof.
  destruct r as [d c n st rec]. unfold stop_recording. run_monad.
  destruct st as [h|]; cbn.
  - destruct (pa_stop (env w)); cbn.
    + destruct c; done.
    + destruct (pa_close (env w)); cbn; destruct c; done.
  - destruct c; done.
Qed.

End Recorder.

(** ** The transcription engine *)

Section Engine.
Import Transcriber.

Lemma calls_snoc (p : effect → bool) (w : World) (l : list effect) :
  calls p (with_trace (trace w ++ l) w) = (calls p w + length (List.filter p l))%nat.
Proof. unfold calls. cbn. by rewrite List.filter_app, length_app. Qed.

Lemma calls_snoc_none (p : effect → bool) (w : World) (l : list effect) :
  List.filter p l = [] → calls p (with_trace (trace w ++ l) w) = calls p w.
Proof. intros H. rewrite calls_snoc, H. cbn. lia. Qed.

Lemma available_elem_of (value : string) :
  available value = true ↔ value ∈ AVAILABLE_MODELS.
Proof. unfold available. apply bool_decide_eq_true. Qed.

Lemma not_available_elem_of (value : string) :
  available value = false ↔ value ∉ AVAILABLE_MODELS.
Proof. unfold available. apply bool_decide_eq_false. Qed.

(** [ensure_model], case by case. *)
Lemma ensure_model_loaded (tr : t) (w : World) (m : WhisperModel) :
  _model tr = Some m → ensure_model (tr, w) = (Ok tt, (tr, w)).
Proof. intros H. unfold ensure_model. run_monad. by rewrite H. Qed.

Lemma ensure_model_absent (tr : t) (w : World) :
  _model tr = None → on_disk w tr = false →
  ensure_model (tr, w) = (Raise (model_not_found tr), (tr, w)).
Proof.
  intros H Hd. unfold ensure_model. run_monad. repeat (rewrite H; cbn).
  unfold on_disk, _get_model_path in Hd. cbn in Hd.
  apply andb_false_iff in Hd.
  destruct Hd as [-> | ->]; cbn; [done|].
  by rewrite orb_true_r.
Qed.

Lemma ensure_model_load_fails (tr : t) (w : World) (e : exn) :
  _model tr = None → on_disk w tr = true →
  whisper_load (env w) (_get_model_path tr) = Some e →
  ensure_model (tr, w) = (Raise e, (tr, loading tr w)).
Proof.
  intros H Hd Hl. unfold ensure_model. run_monad. repeat (rewrite H; cbn).
  unfold on_disk, _get_model_path in Hd. cbn in Hd.
  apply andb_true_iff in Hd. destruct Hd as [-> ->]. cbn.
  unfold WhisperModel_new. run_monad.
  unfold _get_model_path in Hl. cbn in Hl.
  rewrite Hl. unfold loading. by rewrite <- app_assoc.
Qed.

Lemma ensure_model_loads (tr : t) (w : World) :
  _model tr = None → on_disk w tr = true →
  whisper_load (env w) (_get_model_path tr) = None →
  ensure_model (tr, w) =
    (Ok tt,
     (set_model (Some {| model_path := _get_model_path tr |}) tr,
      with_trace
        (trace (loading tr w) ++ [Log INFO "Model '%s' loaded successfully."])
        w)).
Proof.
  intros H Hd Hl. unfold ensure_model. run_monad. repeat (rewrite H; cbn).
  unfold on_disk, _get_model_path in Hd. cbn in Hd.
  apply andb_true_iff in Hd. destruct Hd as [-> ->]. cbn.
  unfold WhisperModel_new. run_monad.
  unfold _get_model_path in Hl. cbn in Hl.
  rewrite Hl. cbn. by rewrite <- !app_assoc.
Qed.



Lemma ensure_model_cases (tr : t) (w : World) :
  ensure_model_outcome tr w (ensure_model (tr, w)).
Proof.
  destruct (_model tr) as [m|] eqn:Hm.
  - rewrite (ensure_model_loaded tr w m Hm). by eapply already_loaded.
  - destruct (on_disk w tr) eqn:Hd.
    + destruct (whisper_load (env w) (_get_model_path tr)) as [e|] eqn:Hl.
      * rewrite (ensure_model_load_fails tr w e Hm Hd Hl). by apply load_failed.
      * rewrite (ensure_model_loads tr w Hm Hd Hl). by apply loaded.
    + rewrite (ensure_model_absent tr w Hm Hd). by apply not_found.
Qed.

(** What [ensure_model] keeps: the configured name and the answers of the
    outside; and when it returns, a model is loaded. *)
Lemma ensure_model_keeps (tr : t) (w : World) :
  let out := ensure_model (tr, w) in
  _model_size out.2.1 = _model_size tr
  ∧ env out.2.2 = env w
  ∧ inferences out.2.2 = inferences w
  ∧ (out.1 = Ok tt → is_loaded out.2.1 = true).
Proof.
  destruct (ensure_model_cases tr w) as [m Hm| | |]; cbn [fst snd].
  - unfold is_loaded. by rewrite Hm.
  - done.
  - unfold inferences, loading. rewrite calls_snoc. cbn.
    repeat split; [lia | done].
  - unfold inferences, loading. cbn [trace with_trace]. rewrite <- app_assoc.
    rewrite calls_snoc. cbn. repeat split; lia.
Qed.

(** The setter of [model_size], case by case. *)
Lemma setter_invalid (tr : t) (w : World) (value : string) :
  available value = false →
  model_size_setter value (tr, w) = (Raise (unknown_model value), (tr, w)).
Proof. intros H. unfold model_size_setter. by rewrite H. Qed.

Lemma setter_same (tr : t) (w : World) (value : string) :
  available value = true → value = _model_size tr →
  model_size_setter value (tr, w) = (Ok tt, (tr, w)).
Proof.
  intros H ->. unfold model_size_setter. rewrite H. run_monad.
  by rewrite bool_decide_eq_false_2 by (intros Hne; by apply Hne).
Qed.

Lemma setter_changes (tr : t) (w : World) (value : string) :
  available value = true → value ≠ _model_size tr →
  model_size_setter value (tr, w) =
    (Ok tt,
     ({| _model_size := value; _model := None |},
      with_trace
        (trace w ++ [Log INFO "Model changed from '%s' to '%s'. Will reload on next use."])
        w)).
Proof.
  intros H Hne. unfold model_size_setter. rewrite H. run_monad.
  by rewrite bool_decide_eq_true_2.
Qed.

(** [transcribe], case by case. *)
Lemma transcribe_short (audio : ndarray) (tr : t) (w : World) :
  size audio < 1600 →
  transcribe audio (tr, w) =
    (Ok ""%string,
     (tr, with_trace (trace w ++ [Log DEBUG "Audio too short (%d samples), skipping."]) w)).
Proof.
  intros H. unfold transcribe. by rewrite bool_decide_eq_true_2.
Qed.

Lemma transcribe_long_fails (audio : ndarray) (tr : t) (w : World) e s :
  1600 ≤ size audio →
  ensure_model (tr, w) = (Raise e, s) →
  transcribe audio (tr, w) = (Raise e, s).
Proof.
  intros H He. unfold transcribe. rewrite bool_decide_eq_false_2 by lia.
  cbv [mbind M_bind]. by rewrite He.
Qed.

Lemma transcribe_long_runs (audio : ndarray) (tr : t) (w : World) tr1 w1 m :
  1600 ≤ size audio →
  ensure_model (tr, w) = (Ok tt, (tr1, w1)) →
  _model tr1 = Some m →
  transcribe audio (tr, w) =
    match whisper_run (env w1) (model_path m) audio with
    | Ok texts =>
        (Ok (strip (join " " (strip <$> texts))),
         (tr1,
          with_trace
            (trace w1 ++ [WhisperRun (model_path m) audio;
                          Log INFO "Transcribed %d chars from %.1fs audio."])
            w1))
    | Raise e =>
        (Raise e,
         (tr1, with_trace (trace w1 ++ [WhisperRun (model_path m) audio]) w1))
    end.
Proof.
  intros H He Hm. unfold transcribe. rewrite bool_decide_eq_false_2 by lia.
  cbv [mbind M_bind]. rewrite He. cbv [self gets]. cbn [fst]. rewrite Hm.
  unfold WhisperModel_transcribe. run_monad.
  destruct (whisper_run (env w1) (model_path m) audio); cbn; [|done].
  by rewrite <- app_assoc.
Qed.


Lemma loads_with_env (e : Env) (w : World) : loads (with_env e w) = loads w.
Proof. reflexivity. Qed.



(** C8.  The setter raises [ValueError] for a name outside
    [AVAILABLE_MODELS] and then leaves the name and the loaded model as
    they are; for a supported name other than the current one it stores
    the name and drops the loaded model, so that the next [ensure_model]
    calls the loader again; for the current name it changes nothing. *)
Theorem model_size_setter_contract (tr : t) (w : World) (value : string) :
  (value ∉ AVAILABLE_MODELS →
     model_size_setter value (tr, w) = (Raise (unknown_model value), (tr, w))
     ∧ is_ValueError (unknown_model value) = true)
  ∧ (value ∈ AVAILABLE_MODELS → value ≠ _model_size tr →
     ∃ w',
       model_size_setter value (tr, w)
       = (Ok tt, ({| _model_size := value; _model := None |}, w'))
       ∧ env w' = env w
       ∧ loads w' = loads w
       ∧ (on_disk w' {| _model_size := value; _model := None |} = true →
          loads (exec ensure_model
                   ({| _model_size := value; _model := None |}, w')).2
          = S (loads w)))
  ∧ (value ∈ AVAILABLE_MODELS → value = _model_size tr →
     model_size_setter value (tr, w) = (Ok tt, (tr, w))).
Proof.
  split; [|split].
  - intros H%not_available_elem_of. by rewrite setter_invalid.
  - intros H%available_elem_of Hne. eexists.
    split; [by apply setter_changes|]. split; [done|].
    split; [unfold loads; by rewrite calls_snoc_none|].
    intros Hd. unfold exec.
    set (tr' := {| _model_size := value; _model := None |}) in *.
    set (w' := with_trace _ w) in *.
    assert (Hw' : loads w' = loads w).
    { unfold loads, w'. by rewrite calls_snoc_none. }
    destruct (ensure_model_cases tr' w') as [m Hm|Hm Hd'|e Hm Hd' Hl|Hm Hd' Hl];
      try done; try congruence; cbn [fst snd].
    + unfold loads, loading in *. rewrite calls_snoc, Hw'. cbn. lia.
    + unfold loads, loading in *. cbn [trace with_trace]. rewrite <- app_assoc.
      rewrite calls_snoc, Hw'. cbn. lia.
  - intros H%available_elem_of Heq. by apply setter_same.
Qed.

(** The configured name stays in [AVAILABLE_MODELS] under every call. *)
Lemma available_step (ev : event) (s : t * World) :
  _model_size s.1 ∈ AVAILABLE_MODELS →
  _model_size (step ev s).1 ∈ AVAILABLE_MODELS.
Proof.
  destruct s as [tr w]. cbn. intros Hin.
  destruct ev as [|audio|value|e]; cbn; unfold exec.
  - by destruct (ensure_model_keeps tr w) as (-> & _).
  - destruct (decide (size audio < 1600)) as [Hs|Hs].
    + by rewrite (transcribe_short audio tr w Hs).
    + pose proof (ensure_model_keeps tr w) as (Hn & _ & _ & Hok).
      destruct (ensure_model (tr, w)) as [[[]|e] [tr1 w1]] eqn:He; cbn in *.
      * specialize (Hok eq_refl). unfold is_loaded in Hok.
        destruct (_model tr1) as [m|] eqn:Hm; [|done].
        rewrite (transcribe_long_runs audio tr w tr1 w1 m); [|lia|done|done].
        destruct (whisper_run (env w1) (model_path m) audio); cbn; by rewrite Hn.
      * rewrite (transcribe_long_fails audio tr w e (tr1, w1)); [|lia|done].
        cbn. by rewrite Hn.
  - destruct (available value) eqn:Ha.
    + destruct (decide (value = _model_size tr)) as [Heq|Hne].
      * by rewrite setter_same.
      * rewrite setter_changes by done. cbn. by apply available_elem_of.
    + by rewrite setter_invalid.
  - done.
Qed.

(** C4.  On fewer than 1600 samples [transcribe] returns the empty string
    and only logs: the transcriber is as it was, nothing is loaded and no
    inference runs.  On 1600 samples or more it calls [ensure_model],
    fails as [ensure_model] fails, and otherwise runs the loaded model on
    the audio once and returns the stripped texts of the segments joined
    by single spaces, stripped. *)
Theorem transcribe_short_circuit (audio : ndarray) (tr : t) (w : World) :
  (size audio < 1600 →
     ∃ w',
       transcribe audio (tr, w) = (Ok ""%string, (tr, w'))
       ∧ env w' = env w ∧ loads w' = loads w ∧ inferences w' = inferences w)
  ∧ (1600 ≤ size audio →
     (∀ e s, ensure_model (tr, w) = (Raise e, s) →
        transcribe audio (tr, w) = (Raise e, s))
     ∧ (∀ s, ensure_model (tr, w) = (Ok tt, s) →
        ∃ m, _model s.1 = Some m
          ∧ WhisperRun (model_path m) audio ∈ trace (exec (transcribe audio) (tr, w)).2
          ∧ inferences (exec (transcribe audio) (tr, w)).2 = S (inferences w)
          ∧ ∀ texts,
              whisper_run (env w) (model_path m) audio = Ok texts →
              (transcribe audio (tr, w)).1
              = Ok (strip (join " " (strip <$> texts))))).
Proof.
  split.
  - intros Hs. eexists. split; [by apply transcribe_short|].
    split; [done|]. unfold loads, inferences.
    by rewrite !calls_snoc_none.
  - intros Hs. split.
    + intros e s He. by apply transcribe_long_fails.
    + intros [tr1 w1] He.
      pose proof (ensure_model_keeps tr w) as (_ & Henv & Hinf & Hok).
      rewrite He in Henv, Hinf, Hok. cbn in Henv, Hinf, Hok.
      specialize (Hok eq_refl). unfold is_loaded in Hok.
      destruct (_model tr1) as [m|] eqn:Hm; [|done].
      exists m. split; [done|]. unfold exec.
      rewrite (transcribe_long_runs audio tr w tr1 w1 m); [|lia|done|done].
      rewrite Henv.
      destruct (whisper_run (env w) (model_path m) audio) as [texts|e];
        cbn [fst snd].
      * split; [cbn [trace with_trace]; apply elem_of_app; right; in_calls|].
        unfold inferences in *.
        rewrite calls_snoc, Hinf. cbn. split; [lia|].
        by intros ? [= <-].
      * split; [cbn [trace with_trace]; apply elem_of_app; right; in_calls|].
        unfold inferences in *.
        rewrite calls_snoc, Hinf. cbn. split; [lia|done].
Qed.

End Engine.

(** ** Frames: what a computation leaves alone *)

Section Frames.
Context {A : Type} (P : A → Prop).

Lemma preserves_ret {R} (a : R) : preserves P (mret a).
Proof. by intros s. Qed.

Lemma preserves_raise {R} (e : exn) : preserves P (raise (A := R) e).
Proof. by intros s. Qed.

Lemma preserves_gets {R} (g : A * World → R) : preserves P (gets g).
Proof. by intros s. Qed.

Lemma preserves_self : preserves P (self (C := A)).
Proof. by intros s. Qed.

Lemma preserves_world : preserves P (world (C := A)).
Proof. by intros s. Qed.

Lemma preserves_emit (e : effect) : preserves P (emit e).
Proof. by intros s. Qed.

Lemma preserves_log (lvl : level) (msg : string) : preserves P (log lvl msg).
Proof. by intros s. Qed.

Lemma preserves_update (g : A → A) :
  (∀ a, P a → P (g a)) → preserves P (update g).
Proof. intros Hg s. apply Hg. Qed.

Lemma preserves_bind {R R'} (m : M (A * World) R) (k : R → M (A * World) R') :
  preserves P m → (∀ a, preserves P (k a)) → preserves P (m ≫= k).
Proof.
  intros Hm Hk s Hs. specialize (Hm s Hs).
  cbv [mbind M_bind]. destruct (m s) as [[a|e] s']; [|done].
  by apply Hk.
Qed.

Lemma preserves_outside (e : effect) (answer : Env → option exn) :
  preserves P (outside e answer).
Proof.
  intros [a w] Hs. unfold outside. run_monad.
  by destruct (answer (env w)).
Qed.

Lemma preserves_try_except {R} (catches : exn → bool)
    (body : M (A * World) R) (handler : exn → M (A * World) R) :
  preserves P body → (∀ e, preserves P (handler e)) →
  preserves P (try_except catches body handler).
Proof.
  intros Hb Hh s Hs. specialize (Hb s Hs).
  unfold try_except. destruct (body s) as [[a|e] s']; [done|].
  destruct (catches e); [by apply Hh|done].
Qed.

Lemma preserves_try_finally {R} (body : M (A * World) R) (final : M (A * World) unit) :
  preserves P body → preserves P final →
  preserves P (try_finally body final).
Proof.
  intros Hb Hf s Hs. specialize (Hb s Hs).
  unfold try_finally. destruct (body s) as [r s'].
  specialize (Hf s' Hb). by destruct (final s') as [[a|e] s''].
Qed.

Lemma preserves_attempt {R} (m : M (A * World) R) :
  preserves P m → preserves P (attempt m).
Proof.
  intros Hm s Hs. specialize (Hm s Hs). unfold attempt.
  by destruct (m s) as [r s'].
Qed.

Lemma preserves_of_result {R} (r : result R) : preserves P (of_result r).
Proof. by intros s. Qed.

(** A method of a component leaves alone what does not depend on it. *)
Lemma preserves_zoom {C R} (get : A → C) (set : C → A → A) (m : M (C * World) R) :
  (∀ c a, P a → P (set c a)) → preserves P (zoom get set m).
Proof.
  intros Hset [a w] Hs. unfold zoom. cbn.
  destruct (m (get a, w)) as [r [c w']]. by apply Hset.
Qed.

End Frames.

(** A property of a component is preserved by the application when the
    method preserves it. *)
Lemma preserves_zoom_inner {A C R} (Q : C → Prop)
    (get : A → C) (set : C → A → A) (m : M (C * World) R) :
  (∀ c a, get (set c a) = c) →
  preserves Q m → preserves (λ a, Q (get a)) (zoom get set m).
Proof.
  intros Hgs Hm [a w] Hs. unfold zoom. cbn in *.
  specialize (Hm (get a, w) Hs).
  destruct (m (get a, w)) as [r [c w']]. cbn in *. by rewrite Hgs.
Qed.

Create HintDb frame.

(** Walks through a computation, rule by rule; what the rules do not reach
    is left to the lemmas of the [frame] database. *)
Ltac frame :=
  repeat first
    [ solve [eauto 2 with frame]
    | apply preserves_bind; [|intros ?]
    | apply preserves_try_except; [|intros ?]
    | apply preserves_try_finally
    | apply preserves_ret
    | apply preserves_raise
    | apply preserves_self
    | apply preserves_world
    | apply preserves_gets
    | apply preserves_log
    | apply preserves_emit
    | apply preserves_outside
    | apply preserves_attempt
    | apply preserves_of_result
    | apply preserves_update; solve [eauto | cbn; intuition (eauto; congruence)]
    | apply preserves_zoom; solve [eauto | cbn; intuition (eauto; congruence)]
    | match goal with
      | |- preserves _ (if ?b then _ else _) => destruct b
      | |- preserves _ (match ?x with _ => _ end) => destruct x
      end
    | progress cbv zeta ].

Section Glue.
Context {C : Type} (P : C → Prop).

Lemma preserves_paste_text (text : string) (restore_clipboard : bool) :
  preserves P (paste_text text restore_clipboard).
Proof.
  unfold paste_text. destruct (negb (truthy text)); [frame|].
  apply preserves_bind.
  - destruct restore_clipboard; [|frame].
    apply preserves_bind; [frame|]. intros w.
    destruct (clip_text_only (env w)); frame.
  - intros saved. frame.
Qed.

Lemma preserves_play_start_sound : preserves P play_start_sound.
Proof. apply preserves_emit. Qed.

Lemma preserves_play_stop_sound : preserves P play_stop_sound.
Proof. apply preserves_emit. Qed.

Lemma preserves_play_error_sound : preserves P play_error_sound.
Proof. apply preserves_emit. Qed.

End Glue.

(** ** The coordinator *)

Ltac innermost x :=
  lazymatch x with
  | context [match ?y with _ => _ end] => innermost y
  | _ => x
  end.

(** Case analysis on whatever a stuck computation is waiting for, innermost
    first. *)
Ltac crunch :=
  repeat (cbn;
    match goal with
    | |- context [match ?x with _ => _ end] =>
        let y := innermost x in
        (is_var y; destruct y) || destruct y eqn:?
    end);
  cbn;
  repeat match goal with u : unit |- _ => destruct u end.

(** A text that is not empty reaches the clipboard, whatever else
    [paste_text] meets. *)
Lemma paste_text_copies {C} (text : string) (s : C * World) :
  truthy text = true →
  ∃ new, trace (paste_text text true s).2.2 = trace s.2 ++ new
    ∧ ClipboardCopy text ∈ new.
Proof.
  intros Ht. destruct s as [c w]. unfold paste_text. rewrite Ht.
  run_monad. crunch;
    (eexists; split; [rewrite <- ?app_assoc; reflexivity|in_calls]).
Qed.

Section Tray.
Import TrayApp.

(** [set_state] stores the state before it touches the icon, and raises
    what the icon raises. *)
Lemma set_state_spec (state : AppState) (s : t * World) :
  (set_state state s).2.1 = set__state state s.1
  ∧ env (set_state state s).2.2 = env s.2
  ∧ (set_state state s).1
    = if _icon s.1
      then match icon_update (env s.2) state with
           | Some e => Raise e
           | None => Ok tt
           end
      else Ok tt.
Proof.
  destruct s as [[hn ver st icon] w]. unfold set_state. run_monad.
  destruct icon; cbn; [|done]. by destruct (icon_update (env w) state).
Qed.

Lemma notify_spec (title message : string) (s : t * World) :
  (notify title message s).1 = Ok tt ∧ (notify title message s).2.1 = s.1.
Proof.
  destruct s as [[hn ver st icon] w]. unfold notify. run_monad.
  destruct icon; cbn; [|done]. by destruct (icon_notify (env w)).
Qed.

Lemma run_state (s : t * World) : _state (run s).2.1 = _state s.1.
Proof. by destruct s as [[hn ver st icon] w]. Qed.

Lemma update_hotkey_display_state (hotkey_name : string) (s : t * World) :
  _state (update_hotkey_display hotkey_name s).2.1 = _state s.1.
Proof.
  destruct s as [[hn ver st icon] w]. unfold update_hotkey_display, set_state.
  run_monad. destruct icon; cbn; [|done].
  destruct (icon_menu (env w)); cbn; [done|].
  by destruct (icon_update (env w) st).
Qed.

End Tray.

Section Coordinator.
Import SypherSTT.

(** *** The tray through the application *)

Lemma tray_notify_object (title message : string) (s : t * World) :
  (tray (TrayApp.notify title message) s).1 = Ok tt
  ∧ (tray (TrayApp.notify title message) s).2.1 = s.1.
Proof.
  destruct s as [a w]. unfold tray, zoom. cbn.
  destruct (notify_spec title message (_tray a, w)) as [Hr Ho].
  destruct (TrayApp.notify title message (_tray a, w)) as [r [c w']].
  cbn in *. subst. by destruct a.
Qed.

Lemma preserves_tray_notify (P : t → Prop) (title message : string) :
  preserves P (tray (TrayApp.notify title message)).
Proof.
  intros s Hs. by destruct (tray_notify_object title message s) as [_ ->].
Qed.

Lemma preserves_state_tray_run (x : AppState) :
  preserves (λ a, state a = x) (tray TrayApp.run).
Proof.
  apply (preserves_zoom_inner (λ c, TrayApp._state c = x)); [done|].
  intros s Hs. by rewrite run_state.
Qed.

Lemma preserves_state_update_hotkey_display (x : AppState) (name : string) :
  preserves (λ a, state a = x) (tray (TrayApp.update_hotkey_display name)).
Proof.
  apply (preserves_zoom_inner (λ c, TrayApp._state c = x)); [done|].
  intros s Hs. by rewrite update_hotkey_display_state.
Qed.

(** What [set_state] leaves of the application, raising or not. *)
Lemma tray_set_state_spec (st : AppState) (s : t * World) :
  (tray (TrayApp.set_state st) s).2.1
  = set_tray (TrayApp.set__state st (_tray s.1)) s.1
  ∧ env (tray (TrayApp.set_state st) s).2.2 = env s.2
  ∧ (tray (TrayApp.set_state st) s).1
    = if TrayApp._icon (_tray s.1)
      then match icon_update (env s.2) st with
           | Some e => Raise e
           | None => Ok tt
           end
      else Ok tt.
Proof.
  destruct s as [a w]. unfold tray, zoom. cbn [fst snd].
  destruct (set_state_spec st (_tray a, w)) as (Ho & He & Hr).
  destruct (TrayApp.set_state st (_tray a, w)) as [r [c w']].
  cbn [fst snd] in *. by subst.
Qed.

Hint Resolve preserves_tray_notify preserves_state_tray_run
  preserves_state_update_hotkey_display preserves_paste_text
  preserves_play_start_sound preserves_play_stop_sound
  preserves_play_error_sound : frame.

(** *** Exceptions that cannot happen *)

Lemma try_except_returns {Σ} (body : M Σ unit) (handler : exn → M Σ unit) :
  (∀ e, returns (handler e)) → returns (try_except Exception body handler).
Proof.
  intros Hh s. unfold try_except.
  destruct (body s) as [[[]|e] s']; [done|]. apply Hh.
Qed.

Lemma try_except_ok {Σ R} catches (body : M Σ R) (handler : exn → M Σ R) s a :
  (body s).1 = Ok a → try_except catches body handler s = body s.
Proof.
  intros H. unfold try_except. destruct (body s) as [[a'|e] s']; [done|].
  discriminate.
Qed.

(** *** The handlers while a transcription is in flight *)

Local Opaque AudioRecorder.start_recording AudioRecorder.stop_recording.

Lemma press_busy (s : t * World) :
  _processing s.1 = true → _on_hotkey_press s = (Ok tt, s).
Proof. intros H. unfold _on_hotkey_press. run_monad. by rewrite H. Qed.

Lemma release_busy (s : t * World) :
  _processing s.1 = true → _on_hotkey_release s = (Ok tt, s).
Proof. intros H. unfold _on_hotkey_release. run_monad. by rewrite H. Qed.

(** *** The listener in front of the handlers *)

Lemma on_press_spec (key : HotkeyManager.Key) (s : t * World) :
  _on_press key s =
    if HotkeyManager._active (_hotkey_manager s.1)
       && bool_decide (key = HotkeyManager._hotkey (_hotkey_manager s.1))
       && negb (HotkeyManager._is_held (_hotkey_manager s.1))
    then try_except Exception _on_hotkey_press
           (λ e, log ERROR "on_start callback error: %s")
           (set_hotkey_manager
              (HotkeyManager.set_is_held true (_hotkey_manager s.1)) s.1, s.2)
    else (Ok tt, s).
Proof.
  destruct s as [a w]. unfold _on_press, HotkeyManager._on_press.
  cbv [mbind M_bind self gets update modify]. cbn [fst snd].
  destruct (HotkeyManager._active (_hotkey_manager a)); cbn [negb andb]; [|done].
  by destruct (bool_decide _ && negb _).
Qed.

Lemma on_release_spec (key : HotkeyManager.Key) (s : t * World) :
  _on_release key s =
    if HotkeyManager._active (_hotkey_manager s.1)
       && bool_decide (key = HotkeyManager._hotkey (_hotkey_manager s.1))
       && HotkeyManager._is_held (_hotkey_manager s.1)
    then try_except Exception _on_hotkey_release
           (λ e, log ERROR "on_stop callback error: %s")
           (set_hotkey_manager
              (HotkeyManager.set_is_held false (_hotkey_manager s.1)) s.1, s.2)
    else (Ok tt, s).
Proof.
  destruct s as [a w]. unfold _on_release, HotkeyManager._on_release.
  cbv [mbind M_bind self gets update modify]. cbn [fst snd].
  destruct (HotkeyManager._active (_hotkey_manager a)); cbn [negb andb]; [|done].
  by destruct (bool_decide _ && _).
Qed.

(** A callback of the listener returns, whatever the handler does. *)
Lemma on_press_returns (key : HotkeyManager.Key) : returns (_on_press key).
Proof.
  intros s. rewrite on_press_spec. destruct (_ && _ && _); [|done].
  by apply try_except_returns.
Qed.

Lemma on_release_returns (key : HotkeyManager.Key) : returns (_on_release key).
Proof.
  intros s. rewrite on_release_spec. destruct (_ && _ && _); [|done].
  by apply try_except_returns.
Qed.

(** A key that goes up while it is not held is dropped, and so is one
    that goes down while it is. *)
Lemma release_dropped (key : HotkeyManager.Key) (s : t * World) :
  HotkeyManager._is_held (_hotkey_manager s.1) = false →
  _on_release key s = (Ok tt, s).
Proof. intros H. by rewrite on_release_spec, H, andb_false_r. Qed.

Lemma press_dropped (key : HotkeyManager.Key) (s : t * World) :
  HotkeyManager._is_held (_hotkey_manager s.1) = true →
  _on_press key s = (Ok tt, s).
Proof. intros H. by rewrite on_press_spec, H, andb_false_r. Qed.

(** *** What the handlers leave alone *)

Lemma preserves_press (x : HotkeyManager.t * bool * list ndarray
                           * list (result unit)) :
  preserves (λ a, (_hotkey_manager a, _processing a, threads a, finishing a) = x)
    _on_hotkey_press.
Proof. unfold _on_hotkey_press, recorder, tray. frame. Qed.

Lemma preserves_release (x : HotkeyManager.t * list (result unit)) :
  preserves (λ a, (_hotkey_manager a, finishing a) = x) _on_hotkey_release.
Proof. unfold _on_hotkey_release, recorder, tray. frame. Qed.

Lemma thread_run_idle (s : t * World) :
  threads s.1 = [] → thread_run s = (Ok tt, s).
Proof. intros H. unfold thread_run. run_monad. by rewrite H. Qed.

Lemma thread_finish_idle (s : t * World) :
  finishing s.1 = [] → thread_finish s = (Ok tt, s).
Proof. intros H. unfold thread_finish. run_monad. by rewrite H. Qed.

Lemma preserves_callback (P : t → Prop) indata frames status :
  (∀ c a, P a → P (set_recorder c a)) →
  preserves P (recorder (AudioRecorder._audio_callback indata frames status)).
Proof. intros H. by apply preserves_zoom. Qed.

Lemma preserves_tray_run (P : t → Prop) :
  (∀ c a, P a → P (set_tray c a)) → preserves P (tray TrayApp.run).
Proof. intros H. by apply preserves_zoom. Qed.

Lemma preserves_preload
    (x : HotkeyManager.t * bool * list ndarray * list (result unit)) :
  preserves (λ a, (_hotkey_manager a, _processing a, threads a, finishing a) = x)
    _preload.
Proof. unfold _preload, transcriber. frame. Qed.

Lemma preserves_state_preload (x : AppState) :
  preserves (λ a, state a = x) _preload.
Proof. unfold _preload, transcriber. frame. Qed.

Lemma preserves_apply_settings (P : t → Prop) (config : Config) :
  (∀ c a, P a → P (set_config c a)) →
  (∀ c a, P a → P (set_hotkey_manager c a)) →
  (∀ c a, P a → P (set_tray c a)) →
  (∀ c a, P a → P (set_transcriber c a)) →
  (∀ c a, P a → P (set_recorder c a)) →
  preserves P (_apply_settings config).
Proof.
  intros Hc Hh Ht Htr Hr.
  unfold _apply_settings, recorder, transcriber, tray, hotkey_manager. frame.
Qed.

Lemma preserves_state_apply_settings (x : AppState) (config : Config) :
  preserves (λ a, state a = x) (_apply_settings config).
Proof.
  unfold _apply_settings, recorder, transcriber, hotkey_manager. frame.
Qed.

Lemma preserves_released_setter (value : string) :
  preserves (λ c, HotkeyManager._is_held c = false)
    (HotkeyManager.hotkey_name_setter value).
Proof. unfold HotkeyManager.hotkey_name_setter. frame. Qed.

Lemma preserves_released_apply_settings (config : Config) :
  preserves (λ a, HotkeyManager._is_held (_hotkey_manager a) = false)
    (_apply_settings config).
Proof.
  unfold _apply_settings, recorder, transcriber, tray.
  apply preserves_bind; [frame|]. intros _.
  apply preserves_bind; [frame|]. intros _.
  apply preserves_bind.
  { apply (preserves_zoom_inner (λ c, HotkeyManager._is_held c = false));
      [done|apply preserves_released_setter]. }
  intros _. frame.
Qed.

Lemma steps_app_invariant (P : t → Prop) (Q : event → Prop) :
  (∀ ev s, Q ev → P s.1 → P (step ev s).1) →
  ∀ evs s, Forall Q evs → P s.1 → P (steps evs s).1.
Proof.
  intros Hstep evs s Hevs Hs. unfold steps.
  apply (foldl_invariant (λ s ev, step ev s) (λ s, P s.1) Q); auto.
Qed.

Lemma boot_at_rest config version e (s0 : t * World) :
  boot config version e = Ok s0 → at_rest s0.1 ∧ coherent s0.1.
Proof.
  unfold boot, __init__.
  destruct (Transcriber.__init__ (model config)) as [tr|x]; [|done].
  destruct (HotkeyManager.__init__ (hotkey config)) as [hm|x] eqn:Hhm; [|done].
  intros [= <-]. unfold HotkeyManager.__init__ in Hhm.
  destruct (HotkeyManager.KEY_MAP !! hotkey config); [|done].
  injection Hhm as <-. split; [done|]. unfold coherent. cbn.
  split; [apply Nat.le_0_l|]. split; [done|discriminate].
Qed.

(** *** A key that goes up with no key down before it *)

Lemma at_rest_step (ev : event) (s : t * World) :
  is_KeyPress ev = false → at_rest s.1 → at_rest (step ev s).1.
Proof.
  intros Hev (Hst & Hp & Ht & Hf & Hh). unfold at_rest.
  destruct ev as [key|key|indata frames status| | | | |config|e];
    try discriminate; cbn [step]; unfold exec.
  - by rewrite release_dropped.
  - rewrite (preserves_callback (λ a, state a = state s.1)) by done.
    rewrite (preserves_callback (λ a, _processing a = _processing s.1)) by done.
    rewrite (preserves_callback (λ a, threads a = threads s.1)) by done.
    rewrite (preserves_callback (λ a, finishing a = finishing s.1)) by done.
    rewrite (preserves_callback (λ a, _hotkey_manager a = _hotkey_manager s.1))
      by done.
    done.
  - by rewrite thread_run_idle.
  - by rewrite thread_finish_idle.
  - pose proof (preserves_preload _ s eq_refl) as [= -> -> -> ->].
    by rewrite (preserves_state_preload (state s.1) s eq_refl).
  - rewrite (preserves_state_tray_run (state s.1) s eq_refl).
    rewrite (preserves_tray_run (λ a, _processing a = _processing s.1)) by done.
    rewrite (preserves_tray_run (λ a, threads a = threads s.1)) by done.
    rewrite (preserves_tray_run (λ a, finishing a = finishing s.1)) by done.
    rewrite (preserves_tray_run (λ a, _hotkey_manager a = _hotkey_manager s.1))
      by done.
    done.
  - rewrite (preserves_state_apply_settings (state s.1) config s eq_refl).
    rewrite (preserves_apply_settings (λ a, _processing a = _processing s.1))
      by done.
    rewrite (preserves_apply_settings (λ a, threads a = threads s.1)) by done.
    rewrite (preserves_apply_settings (λ a, finishing a = finishing s.1))
      by done.
    by rewrite (preserves_released_apply_settings config s Hh).
  - done.
Qed.

Lemma reachable_at_rest config version e s0 (evs : list event) :
  boot config version e = Ok s0 →
  Forall (λ ev, is_KeyPress ev = false) evs →
  at_rest (steps evs s0).1.
Proof.
  intros Hb Hevs.
  apply (steps_app_invariant at_rest (λ ev, is_KeyPress ev = false)); [|done|].
  - intros ev s. apply at_rest_step.
  - by apply boot_at_rest in Hb as [? _].
Qed.

(** The key is not held once it has gone up. *)
Lemma released_after_release (key : HotkeyManager.Key) (s : t * World) :
  key = HotkeyManager._hotkey (_hotkey_manager s.1) →
  HotkeyManager._active (_hotkey_manager s.1) = true →
  HotkeyManager._is_held (_hotkey_manager (step (KeyRelease key) s).1) = false.
Proof.
  intros -> Hactive. cbn [step]. unfold exec. rewrite on_release_spec.
  rewrite Hactive, bool_decide_eq_true_2 by done. cbn [andb].
  destruct (HotkeyManager._is_held (_hotkey_manager s.1)) eqn:Hh; [|done].
  match goal with
  | |- context [try_except Exception ?b ?h ?s1] =>
      assert (Hp : preserves (λ a, (_hotkey_manager a, finishing a)
                                   = (_hotkey_manager s1.1, finishing s1.1))
                     (try_except Exception b h))
        by (apply preserves_try_except;
            [apply preserves_release|intros; apply preserves_log]);
      specialize (Hp s1 eq_refl)
  end.
  cbn [fst snd] in Hp. injection Hp as -> _. by destruct s as [[] w].
Qed.

(** C5.  A key that goes up without having gone down is a no-op.  As
    long as no key has gone down since the start, the application is at
    rest, [IDLE] with nothing in flight; and whenever the key is not held,
    which it is not at rest nor once it has gone up, its going up is
    dropped by the listener before it reaches the coordinator: the state
    stays what it is and nothing is called, in the recorder, the engine
    or anywhere else. *)
Theorem release_without_press config version e
    (s0 : t * World) (evs : list event) (key : HotkeyManager.Key) :
  boot config version e = Ok s0 →
  let s := steps evs s0 in
  (Forall (λ ev, is_KeyPress ev = false) evs →
     state s.1 = IDLE
     ∧ _processing s.1 = false
     ∧ _on_release key s = (Ok tt, s)
     ∧ step (KeyRelease key) s = s)
  ∧ (HotkeyManager._is_held (_hotkey_manager s.1) = false →
     _on_release key s = (Ok tt, s)
     ∧ step (KeyRelease key) s = s)
  ∧ (key = HotkeyManager._hotkey (_hotkey_manager s.1) →
     HotkeyManager._active (_hotkey_manager s.1) = true →
     ∀ key',
       step (KeyRelease key') (step (KeyRelease key) s)
       = step (KeyRelease key) s).
Proof.
  intros Hb s.
  assert (Hdrop : ∀ k (s' : t * World),
            HotkeyManager._is_held (_hotkey_manager s'.1) = false →
            _on_release k s' = (Ok tt, s') ∧ step (KeyRelease k) s' = s').
  { intros k s' Hh. pose proof (release_dropped k s' Hh) as Hrel.
    split; [done|]. cbn [step]. unfold exec. rewrite Hrel. by destruct s'. }
  split; [|split].
  - intros Hevs.
    destruct (reachable_at_rest config version e s0 evs Hb Hevs)
      as (Hst & Hp & _ & _ & Hh).
    fold s in Hst, Hp, Hh. destruct (Hdrop key s Hh). done.
  - apply Hdrop.
  - intros Hkey Hactive key'. apply Hdrop. by apply released_after_release.
Qed.

(** A release right after start-up is dropped. *)
Lemma release_without_press_witness :
  ∃ s0,
    boot defaults "1.0" calm = Ok s0
    ∧ step (KeyRelease HotkeyManager.f9) (steps [TrayRun; Preload] s0)
      = steps [TrayRun; Preload] s0.
Proof.
  eexists. split; [vm_compute; reflexivity|].
  refine (proj2 (proj1 (proj2
    (release_without_press defaults "1.0" calm _ [TrayRun; Preload]
       HotkeyManager.f9 _)) _)).
  - vm_compute. reflexivity.
  - vm_compute. reflexivity.
Defined.

(** *** The configured model in the running application *)

Lemma preserves_supported_ensure_model :
  preserves supported Transcriber.ensure_model.
Proof. intros s. apply (available_step Transcriber.EnsureModel). Qed.

Lemma preserves_supported_transcribe (audio : ndarray) :
  preserves supported (Transcriber.transcribe audio).
Proof. intros s. apply (available_step (Transcriber.Transcribe audio)). Qed.

Lemma preserves_supported_setter (value : string) :
  preserves supported (Transcriber.model_size_setter value).
Proof. intros s. apply (available_step (Transcriber.SetModelSize value)). Qed.

Lemma preserves_supported_transcriber {R} (m : M (Transcriber.t * World) R) :
  preserves supported m →
  preserves (λ a, supported (_transcriber a)) (transcriber m).
Proof. intros H. by apply (preserves_zoom_inner supported). Qed.

Hint Resolve preserves_supported_ensure_model preserves_supported_transcribe
  preserves_supported_setter preserves_supported_transcriber : frame.

Lemma preserves_supported_on_press (key : HotkeyManager.Key) :
  preserves (λ a, supported (_transcriber a)) (_on_press key).
Proof.
  unfold _on_press, HotkeyManager._on_press, _on_hotkey_press, recorder, tray.
  frame.
Qed.

Lemma preserves_supported_on_release (key : HotkeyManager.Key) :
  preserves (λ a, supported (_transcriber a)) (_on_release key).
Proof.
  unfold _on_release, HotkeyManager._on_release, _on_hotkey_release,
    recorder, tray.
  frame.
Qed.

Lemma preserves_supported_thread_run :
  preserves (λ a, supported (_transcriber a)) thread_run.
Proof. unfold thread_run, _transcribe_try, tray. frame. Qed.

Lemma preserves_supported_thread_finish :
  preserves (λ a, supported (_transcriber a)) thread_finish.
Proof. unfold thread_finish, tray. frame. Qed.

Lemma preserves_supported_preload :
  preserves (λ a, supported (_transcriber a)) _preload.
Proof. unfold _preload, tray. frame. Qed.

Lemma preserves_supported_apply_settings (config : Config) :
  preserves (λ a, supported (_transcriber a)) (_apply_settings config).
Proof. unfold _apply_settings, recorder, tray, hotkey_manager. frame. Qed.

Lemma supported_step (ev : event) (s : t * World) :
  supported (_transcriber s.1) → supported (_transcriber (step ev s).1).
Proof.
  intros Hs. destruct ev as [key|key|indata frames status| | | | |config|e];
    cbn [step]; unfold exec.
  - by apply preserves_supported_on_press.
  - by apply preserves_supported_on_release.
  - by apply (preserves_callback (λ a, supported (_transcriber a))).
  - by apply preserves_supported_thread_run.
  - by apply preserves_supported_thread_finish.
  - by apply preserves_supported_preload.
  - by apply (preserves_tray_run (λ a, supported (_transcriber a))).
  - by apply preserves_supported_apply_settings.
  - done.
Qed.

Lemma reachable_supported config version e s0 (evs : list event) :
  boot config version e = Ok s0 →
  supported (_transcriber (steps evs s0).1).
Proof.
  intros Hb.
  apply (steps_app_invariant (λ a, supported (_transcriber a)) (λ _, True)).
  - intros ev s _. apply supported_step.
  - by apply Forall_true.
  - unfold boot, __init__ in Hb.
    destruct (Transcriber.__init__ (model config)) as [tr|x] eqn:Htr; [|done].
    destruct (HotkeyManager.__init__ (hotkey config)) as [hm|x]; [|done].
    injection Hb as <-. cbn. unfold Transcriber.__init__ in Htr.
    destruct (Transcriber.available (model config)) eqn:Ha; [|done].
    injection Htr as <-. by apply available_elem_of.
Qed.

(** C9.  The constructor raises [ValueError] for a name outside
    [AVAILABLE_MODELS]; a transcriber it does build holds a supported name,
    and so does every state that calls of its methods lead to; so does the
    transcriber of the running application, whatever happens to it. *)
Theorem model_size_always_available (model_size : string) (w : World)
    (calls : list Transcriber.event) :
  (model_size ∉ AVAILABLE_MODELS →
     Transcriber.__init__ model_size
     = Raise (Transcriber.unknown_model model_size)
     ∧ is_ValueError (Transcriber.unknown_model model_size) = true)
  ∧ (∀ tr, Transcriber.__init__ model_size = Ok tr →
       Transcriber._model_size tr ∈ AVAILABLE_MODELS
       ∧ Transcriber._model_size (Transcriber.steps calls (tr, w)).1
         ∈ AVAILABLE_MODELS)
  ∧ (∀ config version e s0 evs,
       boot config version e = Ok s0 →
       Transcriber._model_size (_transcriber (steps evs s0).1)
       ∈ AVAILABLE_MODELS).
Proof.
  split; [|split].
  - intros H%not_available_elem_of. unfold Transcriber.__init__. by rewrite H.
  - intros tr Hinit. unfold Transcriber.__init__ in Hinit.
    destruct (Transcriber.available model_size) eqn:Ha; [|done].
    injection Hinit as <-. apply available_elem_of in Ha.
    split; [done|].
    apply (foldl_invariant (λ s ev, Transcriber.step ev s)
             (λ s, Transcriber._model_size s.1 ∈ AVAILABLE_MODELS) (λ _, True));
      [|by apply Forall_true|done].
    intros s ev _ Hs. by apply available_step.
  - intros config version e s0 evs Hb.
    by apply (reachable_supported config version e).
Qed.

(** *** The race and the icon that cannot be redrawn *)

Lemma stuck_step (ev : event) (s : t * World) :
  stuck s.1 → stuck (step ev s).1.
Proof.
  intros (Hst & Hp & Ht & Hf). unfold stuck.
  destruct ev as [key|key|indata frames status| | | | |config|e];
    cbn [step]; unfold exec.
  - rewrite on_press_spec. destruct (_ && _ && _); [|done].
    rewrite (try_except_ok _ _ _ _ tt) by by rewrite press_busy.
    by rewrite press_busy.
  - rewrite on_release_spec. destruct (_ && _ && _); [|done].
    rewrite (try_except_ok _ _ _ _ tt) by by rewrite release_busy.
    by rewrite release_busy.
  - rewrite (preserves_callback (λ a, state a = state s.1)) by done.
    rewrite (preserves_callback (λ a, _processing a = _processing s.1)) by done.
    rewrite (preserves_callback (λ a, threads a = threads s.1)) by done.
    rewrite (preserves_callback (λ a, finishing a = finishing s.1)) by done.
    done.
  - by rewrite thread_run_idle.
  - by rewrite thread_finish_idle.
  - pose proof (preserves_preload _ s eq_refl) as [= _ -> -> ->].
    by rewrite (preserves_state_preload (state s.1) s eq_refl).
  - rewrite (preserves_state_tray_run (state s.1) s eq_refl).
    rewrite (preserves_tray_run (λ a, _processing a = _processing s.1)) by done.
    rewrite (preserves_tray_run (λ a, threads a = threads s.1)) by done.
    rewrite (preserves_tray_run (λ a, finishing a = finishing s.1)) by done.
    done.
  - rewrite (preserves_state_apply_settings (state s.1) config s eq_refl).
    rewrite (preserves_apply_settings (λ a, _processing a = _processing s.1))
      by done.
    rewrite (preserves_apply_settings (λ a, threads a = threads s.1)) by done.
    rewrite (preserves_apply_settings (λ a, finishing a = finishing s.1))
      by done.
    done.
  - done.
Qed.

(** C1.  The code at the failing input: the key goes down when the
    transcription thread has cleared the in-flight flag, under the lock,
    and has not yet set the state, outside it.  The state is still
    [TRANSCRIBING] and the press is not rejected: the coordinator enters
    [RECORDING] from [TRANSCRIBING] and opens a second stream; the
    thread then sets [IDLE] while the capture goes on. *)
Lemma press_accepted_before_idle :
  ∃ s0,
    boot defaults "1.0" calm = Ok s0
    ∧ (let s := steps [TrayRun; KeyPress HotkeyManager.f9;
                       AudioBlock (silence 1024) 1024 false;
                       AudioBlock (silence 1024) 1024 false;
                       KeyRelease HotkeyManager.f9; ThreadRun] s0 in
       state s.1 = TRANSCRIBING
       ∧ _processing s.1 = false
       ∧ AudioRecorder.is_recording (_recorder s.1) = false
       ∧ pa_streams s.2 = 1%nat
       ∧ state (step (KeyPress HotkeyManager.f9) s).1 = RECORDING
       ∧ AudioRecorder.is_recording
           (_recorder (step (KeyPress HotkeyManager.f9) s).1) = true
       ∧ pa_streams (step (KeyPress HotkeyManager.f9) s).2 = 2%nat
       ∧ step (KeyPress HotkeyManager.f9) s ≠ s
       ∧ state (steps [KeyPress HotkeyManager.f9; ThreadFinish] s).1 = IDLE
       ∧ AudioRecorder.is_recording
           (_recorder (steps [KeyPress HotkeyManager.f9; ThreadFinish] s).1)
         = true).
Proof.
  eexists. split; [vm_compute; reflexivity|]. cbv zeta.
  repeat (split; [vm_compute; reflexivity|]).
  split; [|split; vm_compute; reflexivity].
  intros H. apply (f_equal (λ o, pa_streams o.2)) in H.
  vm_compute in H. discriminate.
Qed.

(** C3.  The code at the failing input: a tray icon that exists and
    cannot be redrawn.  The transcription thread clears the flag and
    stores [IDLE], and then the exception of the icon leaves it
    uncaught.  And when the icon fails as the key goes up, the release
    handler has set the flag and stored [TRANSCRIBING] and starts no
    thread: the application stays in [TRANSCRIBING] with the flag set,
    whatever happens from then on. *)
Lemma icon_failure_breaks_transcription :
  ∃ s0,
    boot defaults "1.0" calm = Ok s0
    ∧ (let s := steps [TrayRun; KeyPress HotkeyManager.f9;
                       AudioBlock (silence 1024) 1024 false;
                       AudioBlock (silence 1024) 1024 false;
                       KeyRelease HotkeyManager.f9; Outside brittle;
                       ThreadRun] s0 in
       finishing s.1 = [Ok tt]
       ∧ _processing s.1 = false
       ∧ (thread_finish s).1 = Raise (OtherError "OSError" "icon update failed")
       ∧ state (exec thread_finish s).1 = IDLE)
    ∧ (let s := steps [TrayRun; Outside brittle] s0 in
       (_transcribe (silence 2048) s).1
       = Raise (OtherError "OSError" "icon update failed")
       ∧ _processing (exec (_transcribe (silence 2048)) s).1 = false
       ∧ state (exec (_transcribe (silence 2048)) s).1 = IDLE)
    ∧ (let s := steps [TrayRun; KeyPress HotkeyManager.f9;
                       AudioBlock (silence 1024) 1024 false;
                       Outside brittle; KeyRelease HotkeyManager.f9] s0 in
       state s.1 = TRANSCRIBING
       ∧ _processing s.1 = true
       ∧ threads s.1 = []
       ∧ finishing s.1 = []
       ∧ AudioRecorder.is_recording (_recorder s.1) = true
       ∧ ∀ evs, state (steps evs s).1 = TRANSCRIBING
                ∧ _processing (steps evs s).1 = true).
Proof.
  eexists. split; [vm_compute; reflexivity|]. cbv zeta.
  split; [repeat split; vm_compute; reflexivity|].
  split; [repeat split; vm_compute; reflexivity|].
  repeat (split; [vm_compute; reflexivity|]).
  intros evs.
  match goal with
  | |- context [steps evs ?s] =>
      assert (Hs : stuck (steps evs s).1);
      [apply (steps_app_invariant stuck (λ _, True));
       [intros ev s' _; apply stuck_step|by apply Forall_true|
        repeat split; vm_compute; reflexivity]
      |by destruct Hs as (? & ? & _)]
  end.
Qed.

End Coordinator.

(** ** End-to-end scenarios *)

Section Scenarios.
Import SypherSTT.

(** Press, 0.05 s of samples, release: nothing is pasted, no model is
    loaded, and the state is [IDLE] again. *)
Example scenario_short_recording :
  outcome calm
    [TrayRun; KeyPress HotkeyManager.f9; AudioBlock (silence 800) 800 false;
     KeyRelease HotkeyManager.f9; ThreadRun; ThreadFinish]
  = Some (IDLE, false, [], [], 0%nat, 0%nat).
Proof. vm_compute. reflexivity. Qed.

(** Press, two blocks more than 0.1 s long together, release: the text of
    the segments is pasted once. *)
Example scenario_dictation :
  outcome calm
    [TrayRun; KeyPress HotkeyManager.f9;
     AudioBlock (silence 1024) 1024 false; AudioBlock (silence 1024) 1024 false;
     KeyRelease HotkeyManager.f9; ThreadRun; ThreadFinish]
  = Some (IDLE, false, ["hello world"%string], [], 1%nat, 1%nat).
Proof. vm_compute. reflexivity. Qed.

(** ... and the state in between is [TRANSCRIBING]. *)
Example scenario_dictation_in_flight :
  outcome calm
    [TrayRun; KeyPress HotkeyManager.f9;
     AudioBlock (silence 1024) 1024 false; AudioBlock (silence 1024) 1024 false;
     KeyRelease HotkeyManager.f9]
  = Some (TRANSCRIBING, true, [], [], 0%nat, 0%nat).
Proof. vm_compute. reflexivity. Qed.

(** Press with no microphone: one notification, and the state is [IDLE]. *)
Example scenario_no_device :
  outcome deaf [TrayRun; KeyPress HotkeyManager.f9]
  = Some (IDLE, false, [],
          [("Recording Error", "Error opening InputStream")]%string,
          0%nat, 0%nat).
Proof. vm_compute. reflexivity. Qed.

(** A release with no press before it. *)
Example scenario_spurious_release :
  outcome calm [TrayRun; KeyRelease HotkeyManager.f9]
  = Some (IDLE, false, [], [], 0%nat, 0%nat).
Proof. vm_compute. reflexivity. Qed.

End Scenarios.

(** * More properties *)

(** ** The recorder, continued *)

Section RecorderMore.
Import AudioRecorder.

(** The total length of some blocks. *)
Lemma size_concatenate_cons (a : ndarray) (chunks : list ndarray) :
  size (np_concatenate (a :: chunks)) = size a + size (np_concatenate chunks).
Proof. unfold size, np_concatenate. cbn. rewrite length_app. lia. Qed.

Lemma size_nonneg (a : ndarray) : 0 ≤ size a.
Proof. unfold size. lia. Qed.

(** The event of a block as PortAudio delivers it, [frames] being its
    length. *)
Lemma recording_blocks (blocks : list (ndarray * bool)) (r : t) (w : World) :
  _recording r = true →
  _samples_recorded r + size (np_concatenate blocks.*1) < cap →
  let r' := (steps ((λ b, Block b.1 (size b.1) b.2) <$> blocks) (r, w)).1 in
  _chunks r' = _chunks r ++ blocks.*1
  ∧ _samples_recorded r' = _samples_recorded r + size (np_concatenate blocks.*1)
  ∧ _recording r' = true
  ∧ _stream r' = _stream r
  ∧ _device r' = _device r.
Proof.
  unfold steps.
  revert r w. induction blocks as [|[indata status] blocks IH]; intros r w Hrec Hlt.
  - cbn. rewrite app_nil_r. unfold size, np_concatenate. cbn.
    repeat split; (done || lia).
  - cbn [fmap list_fmap fst] in *. rewrite size_concatenate_cons in Hlt.
    pose proof (size_nonneg indata). pose proof (size_nonneg (np_concatenate blocks.*1)).
    cbn [foldl].
    pose proof (callback_state indata (size indata) status r w) as Hcb.
    rewrite Hrec in Hcb. cbn [step fst snd].
    destruct (exec (_audio_callback indata (size indata) status) (r, w))
      as [r1 w1] eqn:Hex. cbn [fst] in Hcb. subst r1.
    rewrite bool_decide_eq_true_2 by lia.
    match goal with |- context [foldl _ (?r1, w1)] =>
      destruct (IH r1 w1) as (Hc & Hs & Hr & Hst & Hd); [done|cbn; lia|]
    end.
    cbn [fst] in *. rewrite Hc, Hs, Hr, Hst, Hd.
    cbn [_chunks _samples_recorded _recording _stream _device].
    rewrite size_concatenate_cons, <- app_assoc. repeat split; (done || lia).
Qed.

Lemma steps_cons (ev : event) (evs : list event) (s : t * World) :
  steps (ev :: evs) s = steps evs (step ev s).
Proof. reflexivity. Qed.

Lemma start_recording_ok (r : t) (w : World) :
  pa_open (env w) = None → pa_start (env w) = None →
  ∃ w',
    start_recording (r, w)
    = (Ok tt,
       ({| _device := _device r; _chunks := []; _samples_recorded := 0;
           _stream := Some (pa_streams w); _recording := true |}, w'))
    ∧ env w' = env w.
Proof.
  intros Ho Hs. destruct r as [d c n st rec].
  unfold start_recording. run_monad. rewrite Ho. cbn. rewrite Hs. cbn.
  eexists. split; reflexivity.
Qed.

(** X1.  What is delivered during a session is what [stop_recording]
    returns: after a start that succeeds and blocks that stay below the
    cap together, the array returned is the blocks end to end, and
    nothing is left behind. *)
Theorem capture_round_trip (r : t) (w : World) (blocks : list (ndarray * bool)) :
  pa_open (env w) = None → pa_start (env w) = None →
  size (np_concatenate blocks.*1) < SAMPLE_RATE * MAX_RECORDING_SECONDS →
  let s := steps (Start :: ((λ b, Block b.1 (size b.1) b.2) <$> blocks)) (r, w) in
  _recording s.1 = true
  ∧ (stop_recording s).1 = Ok (np_concatenate blocks.*1)
  ∧ _chunks (exec stop_recording s).1 = []
  ∧ _recording (exec stop_recording s).1 = false.
Proof.
  intros Ho Hs Hlt. cbv zeta. rewrite steps_cons. cbn [step].
  destruct (start_recording_ok r w Ho Hs) as (w' & Hstart & _).
  apply (f_equal snd) in Hstart. change (start_recording (r, w)).2
    with (exec start_recording (r, w)) in Hstart. rewrite Hstart. cbn [snd].
  match goal with |- context [steps _ (?r1, w')] =>
    destruct (recording_blocks blocks r1 w') as (Hc & _ & Hr & _); [done|done|]
  end.
  cbn [_chunks app] in Hc.
  match goal with |- context [steps ?evs ?s0] =>
    destruct (steps evs s0) as [r2 w2] eqn:Hsteps
  end.
  cbn [fst] in *. split; [done|].
  destruct (stop_recording_spec r2 w2) as (r3 & w3 & Hstop & Hrec3 & _).
  pose proof (stop_state r2 w2) as (Hc3 & _ & Hr3 & _).
  unfold exec in *. rewrite Hstop in *. cbn in *. by rewrite Hc.
Qed.

Lemma capture_round_trip_witness :
  (stop_recording
     (steps [Start; Block (silence 3) 3 false; Block [5; 7] 2 true]
        (__init__ None, fresh calm))).1
  = Ok [0; 0; 0; 5; 7].
Proof.
  refine (proj1 (proj2
    (capture_round_trip (__init__ None) (fresh calm)
       [(silence 3, false); ([5; 7], true)] _ _ _))); reflexivity.
Defined.

(** X2.  Outside a session nothing is recorded: a recorder whose capture
    is off, because it was never started, was stopped, stopped itself at
    the cap or failed to start, is left exactly as it is by every block
    delivered, whatever the outside answers meanwhile. *)
Theorem blocks_ignored_when_not_recording (r : t) (w : World) (evs : list event) :
  _recording r = false →
  Forall (λ ev, ev ≠ Start ∧ ev ≠ Stop) evs →
  (steps evs (r, w)).1 = r.
Proof.
  intros Hrec Hevs. revert w. induction Hevs as [|ev evs [Hne1 Hne2] _ IH]; intros w.
  - done.
  - unfold steps. cbn [foldl]. fold (steps evs).
    destruct ev as [| |indata frames status|e]; try done; cbn [step].
    + pose proof (callback_state indata frames status r w) as Hcb.
      rewrite Hrec in Hcb.
      destruct (exec (_audio_callback indata frames status) (r, w)) as [r1 w1].
      cbn in Hcb. subst r1. apply IH.
    + apply IH.
Qed.

Lemma blocks_ignored_when_not_recording_witness :
  (steps [Block (silence 4) 4 false; Answers deaf; Block [1] 1 true]
     (__init__ None, fresh calm)).1
  = __init__ None.
Proof.
  apply (blocks_ignored_when_not_recording (__init__ None) (fresh calm)).
  - reflexivity.
  - repeat constructor; discriminate.
Defined.

(** X3.  [start_recording] always begins a fresh session; it raises
    exactly what PortAudio raises on opening or starting the stream, and
    otherwise returns with capture on and the new stream held.  After a
    [PortAudioError] capture is off; after any other exception it stays
    on.  A stream that opened but did not start stays held. *)
Theorem start_recording_outcome (r : t) (w : World) :
  _chunks (exec start_recording (r, w)).1 = []
  ∧ _samples_recorded (exec start_recording (r, w)).1 = 0
  ∧ match pa_open (env w), pa_start (env w) with
    | None, None =>
        (start_recording (r, w)).1 = Ok tt
        ∧ _recording (exec start_recording (r, w)).1 = true
        ∧ _stream (exec start_recording (r, w)).1 = Some (pa_streams w)
        ∧ pa_streams (exec start_recording (r, w)).2 = S (pa_streams w)
    | Some e, _ =>
        (start_recording (r, w)).1 = Raise e
        ∧ _recording (exec start_recording (r, w)).1 = negb (is_PortAudioError e)
        ∧ _stream (exec start_recording (r, w)).1 = _stream r
        ∧ pa_streams (exec start_recording (r, w)).2 = pa_streams w
    | None, Some e =>
        (start_recording (r, w)).1 = Raise e
        ∧ _recording (exec start_recording (r, w)).1 = negb (is_PortAudioError e)
        ∧ _stream (exec start_recording (r, w)).1 = Some (pa_streams w)
        ∧ pa_streams (exec start_recording (r, w)).2 = S (pa_streams w)
    end.
Proof.
  destruct r as [d c n st rec]. unfold exec, start_recording. run_monad.
  destruct (pa_open (env w)) as [e|]; cbn.
  - by destruct (is_PortAudioError e).
  - destruct (pa_start (env w)) as [e|]; cbn; [|done].
    by destruct (is_PortAudioError e).
Qed.

(** X4.  [start_recording] never stops or closes a stream.  Called on a
    recorder that holds one, it lets go of that stream without a call to
    its [stop] or [close], and the [stop_recording] that follows closes
    the new stream only. *)
Theorem restart_leaves_stream_open (r : t) (w : World) (h : nat) :
  _stream r = Some h → (h < pa_streams w)%nat →
  pa_open (env w) = None → pa_start (env w) = None →
  let s := exec start_recording (r, w) in
  _stream s.1 = Some (pa_streams w)
  ∧ (∃ new, trace s.2 = trace w ++ new
        ∧ ∀ h', (PaStop h' ∉ new) ∧ (PaClose h' ∉ new))
  ∧ (∃ new, trace (exec stop_recording s).2 = trace s.2 ++ new
        ∧ (PaStop h ∉ new) ∧ (PaClose h ∉ new)
        ∧ PaStop (pa_streams w) ∈ new)
  ∧ _stream (exec stop_recording s).1 = None.
Proof.
  intros Hst Hlt Ho Hs. destruct r as [d c n st rec]. cbn in Hst. subst st.
  unfold exec, start_recording, stop_recording. run_monad.
  rewrite Ho. cbn. rewrite Hs. cbn.
  split; [done|]. split.
  - eexists. split; [by rewrite <- !app_assoc|].
    intros h'. split; not_in_calls.
  - destruct (pa_stop (env w)) as [e|]; cbn;
      [|destruct (pa_close (env w)) as [e|]; cbn];
      (split; [|done]); eexists;
      (split; [by rewrite <- ?app_assoc|]);
      (split; [|split]); try in_calls;
      intros Hin; apply list_elem_of_In in Hin; cbn in Hin;
      intuition (simplify_eq; lia).
Qed.

Lemma restart_leaves_stream_open_witness :
  _stream
    (exec start_recording (exec start_recording (__init__ None, fresh calm))).1
  = Some 1%nat.
Proof.
  refine (proj1
    (restart_leaves_stream_open
       (exec start_recording (__init__ None, fresh calm)).1
       (exec start_recording (__init__ None, fresh calm)).2 0 _ _ _ _));
    vm_compute; (reflexivity || lia).
Defined.

End RecorderMore.

(** ** The input devices and the microphone choice of the settings window *)

Section Devices.

Lemma list_devices_from_elem (devices : list DeviceInfo) (i j : nat) (n : string) :
  (j, n) ∈ list_devices_from i devices
  ↔ ∃ dev, (i ≤ j)%nat ∧ devices !! (j - i)%nat = Some dev
           ∧ name dev = n ∧ 0 < max_input_channels dev.
Proof.
  revert i. induction devices as [|d devices IH]; intros i; cbn.
  - split; [intros H; inversion H|intros (dev & _ & H & _); done].
  - assert ((j, n) ∈ list_devices_from (S i) devices
            ↔ ∃ dev, (i < j)%nat ∧ (d :: devices) !! (j - i)%nat = Some dev
                     ∧ name dev = n ∧ 0 < max_input_channels dev) as Hrest.
    { rewrite IH. split; intros (dev & Hle & Hl & Hn & Hc); exists dev;
        (split; [lia|]); (split; [|done]).
      - replace (j - i)%nat with (S (j - S i)) by lia. done.
      - replace (j - i)%nat with (S (j - S i)) in Hl by lia. done. }
    case_bool_decide as Hd.
    + rewrite elem_of_cons, Hrest. split.
      * intros [[= -> ->]|(dev & Hle & H)].
        -- exists d. rewrite Nat.sub_diag. done.
        -- exists dev. split; [lia|done].
      * intros (dev & Hle & Hl & Hn & Hc).
        destruct (decide (i = j)) as [->|Hne].
        -- rewrite Nat.sub_diag in Hl. cbn in Hl. left. congruence.
        -- right. exists dev. split; [lia|done].
    + rewrite Hrest. split.
      * intros (dev & Hle & H). exists dev. split; [lia|done].
      * intros (dev & Hle & Hl & Hn & Hc).
        destruct (decide (i = j)) as [->|Hne].
        -- rewrite Nat.sub_diag in Hl. cbn in Hl. congruence.
        -- exists dev. split; [lia|done].
Qed.

Lemma list_devices_from_sorted (devices : list DeviceInfo) (i : nat) :
  StronglySorted (λ a b, a.1 < b.1)%nat (list_devices_from i devices).
Proof.
  revert i. induction devices as [|d devices IH]; intros i; cbn.
  - constructor.
  - case_bool_decide; [|apply IH]. constructor; [apply IH|].
    apply Forall_forall. intros [j n] Hin.
    apply list_devices_from_elem in Hin as (_ & Hle & _). cbn. lia.
Qed.

(** X5.  [list_devices] lists exactly the devices with an input channel,
    each under its position in what [sd.query_devices()] answers and
    with its name, in increasing order of position, so none twice. *)
Theorem list_devices_spec (devices : list DeviceInfo) :
  (∀ i n, (i, n) ∈ list_devices devices
          ↔ ∃ dev, devices !! i = Some dev ∧ name dev = n
                   ∧ 0 < max_input_channels dev)
  ∧ StronglySorted (λ a b, a.1 < b.1)%nat (list_devices devices)
  ∧ NoDup (list_devices devices).*1.
Proof.
  split; [|split].
  - intros i n. unfold list_devices. rewrite list_devices_from_elem.
    rewrite Nat.sub_0_r. split; intros (dev & H); exists dev; intuition lia.
  - apply list_devices_from_sorted.
  - unfold list_devices. generalize (list_devices_from_sorted devices 0).
    induction 1 as [|a l _ IH Hall]; cbn; constructor; [|done].
    rewrite list_elem_of_fmap. intros (b & Heq & Hin).
    rewrite Forall_forall in Hall. specialize (Hall b Hin). lia.
Qed.

Import SettingsWindow.

Lemma sorted_lookup {A} (R : relation A) (l : list A) (k k' : nat) (a b : A) :
  StronglySorted R l → l !! k = Some a → l !! k' = Some b → (k < k')%nat → R a b.
Proof.
  intros Hs Ha Hb Hlt. rewrite <- (take_drop k' l) in Hs.
  apply (StronglySorted_app_1_elem_of _ _ _ _ _ Hs).
  - apply list_elem_of_lookup. exists k. by rewrite lookup_take_lt.
  - apply list_elem_of_lookup. exists 0%nat. by rewrite lookup_drop, Nat.add_0_r.
Qed.

Lemma index_lookup (x : string) (names : list string) :
  x ∈ names →
  names !! index x names = Some x
  ∧ ∀ k, (k < index x names)%nat → names !! k ≠ Some x.
Proof.
  induction names as [|y names IH]; [by intros ?%elem_of_nil|].
  intros Hin. cbn. case_bool_decide as Hxy.
  - subst. split; [done|]. intros k Hk. lia.
  - apply elem_of_cons in Hin as [?|Hin]; [done|].
    destruct (IH Hin) as [Hl Hfirst]. split; [done|].
    intros [|k] Hk; cbn; [congruence|]. apply Hfirst. lia.
Qed.

(** What [_save] stores for a name of the list that is not the first
    entry: the position of the first input device of that name. *)
Lemma device_index_listed (device_name : string) (devices : list DeviceInfo) :
  device_name ≠ "System Default"%string →
  device_name ∈ (list_devices devices).*2 →
  ∃ k i,
    device_index device_name devices (_device_indices devices) = Some i
    ∧ list_devices devices !! k = Some (i, device_name)
    ∧ ∀ k' j, (k' < k)%nat → list_devices devices !! k' ≠ Some (j, device_name).
Proof.
  intros Hne Hin. unfold device_index, device_names, _device_indices,
    _get_input_devices.
  rewrite (bool_decide_eq_true_2 (device_name ∈ _))
    by (apply elem_of_cons; by right).
  cbn [index]. rewrite (bool_decide_eq_false_2 (device_name = _)) by done.
  destruct (index_lookup _ _ Hin) as [Hl Hfirst].
  set (k := index device_name (list_devices devices).*2) in *.
  rewrite list_lookup_fmap in Hl.
  destruct (list_devices devices !! k) as [[i n]|] eqn:Hk; [|done].
  cbn in Hl. injection Hl as ->.
  exists k, i. split; [|split; [done|]].
  - rewrite bool_decide_eq_true_2.
    + rewrite lookup_cons, list_lookup_fmap, Hk. done.
    + cbn [length]. rewrite length_fmap. apply lookup_lt_Some in Hk. lia.
  - intros k' j Hlt Hk'. apply (Hfirst k' Hlt).
    rewrite list_lookup_fmap, Hk'. done.
Qed.

(** X6.  With the devices unchanged since the window opened, the device
    [_save] stores is never a wrong one: it is [None], or the position of
    an input device that bears the name chosen. *)
Theorem device_index_sound (device_name : string) (devices : list DeviceInfo) :
  match device_index device_name devices (_device_indices devices) with
  | None => True
  | Some i =>
      ∃ dev, devices !! i = Some dev ∧ name dev = device_name
             ∧ 0 < max_input_channels dev
  end.
Proof.
  destruct (decide (device_name = "System Default"%string)) as [->|Hne].
  { unfold device_index, device_names.
    rewrite (bool_decide_eq_true_2 (_ ∈ _)) by (apply elem_of_cons; by left).
    cbn. done. }
  destruct (decide (device_name ∈ (list_devices devices).*2)) as [Hin|Hout].
  - destruct (device_index_listed _ _ Hne Hin) as (k & i & -> & Hk & _).
    apply list_elem_of_lookup_2 in Hk.
    apply list_devices_from_elem in Hk as (dev & _ & Hl & Hn & Hc).
    rewrite Nat.sub_0_r in Hl. by exists dev.
  - unfold device_index, device_names, _get_input_devices.
    rewrite (bool_decide_eq_false_2 (_ ∈ _)).
    + cbn. done.
    + rewrite elem_of_cons. intros [?|?]; done.
Qed.

(** X7.  The settings window keeps the configured microphone: when the
    configured device is an input device whose name is not that of the
    first entry and that no input device before it bears, the name the
    window preselects is stored back by [_save] as the same device. *)
Theorem settings_keep_device (devices : list DeviceInfo) (i : nat) (dev : DeviceInfo) :
  devices !! i = Some dev →
  0 < max_input_channels dev →
  name dev ≠ "System Default"%string →
  (∀ j dev', (j < i)%nat → devices !! j = Some dev' →
             0 < max_input_channels dev' → name dev' ≠ name dev) →
  current_name (Some i) devices = name dev
  ∧ device_index (current_name (Some i) devices) devices
      (_device_indices devices) = Some i.
Proof.
  intros Hi Hc Hne Hfirst.
  assert ((i, name dev) ∈ list_devices devices) as Hin.
  { apply list_devices_from_elem. exists dev. rewrite Nat.sub_0_r.
    repeat split; (done || lia). }
  assert (current_name (Some i) devices = name dev) as Hname.
  { unfold current_name, _get_input_devices.
    assert (Forall (λ d, d.2 = name dev)
              (List.filter (λ d, bool_decide (d.1 = i)) (list_devices devices)))
      as Hall.
    { apply Forall_forall. intros [j n] Hj.
      apply list_elem_of_In, filter_In in Hj as [Hj Heq].
      apply bool_decide_eq_true in Heq. cbn in Heq. subst j.
      apply list_elem_of_In, list_devices_from_elem in Hj
        as (dev' & _ & Hl & Hn & _).
      rewrite Nat.sub_0_r in Hl. cbn. congruence. }
    assert ((i, name dev)
            ∈ List.filter (λ d, bool_decide (d.1 = i)) (list_devices devices))
      as Hmem.
    { apply list_elem_of_In, filter_In. split; [by apply list_elem_of_In|].
      by apply bool_decide_eq_true. }
    destruct (List.filter _ _) as [|[j n] l]; [by apply elem_of_nil in Hmem|].
    cbn. by apply Forall_cons in Hall as [Hall _]. }
  split; [done|]. rewrite Hname.
  destruct (device_index_listed (name dev) devices Hne) as (k & j & -> & Hk & Hmin).
  { apply list_elem_of_fmap. by exists (i, name dev). }
  f_equal.
  apply list_elem_of_lookup_1 in Hin as [k' Hk'].
  destruct (decide (k' < k)%nat) as [Hlt|Hge]; [by destruct (Hmin k' i Hlt)|].
  destruct (decide (k = k')) as [->|Hkne]; [congruence|].
  (* an earlier input device of the same name *)
  exfalso.
  pose proof (sorted_lookup _ _ k k' _ _ (list_devices_from_sorted devices 0)
                Hk Hk' ltac:(lia)) as Hji. cbn in Hji.
  apply list_elem_of_lookup_2 in Hk.
  apply list_devices_from_elem in Hk as (dev' & _ & Hl & Hn & Hc').
  rewrite Nat.sub_0_r in Hl.
  by apply (Hfirst j dev' Hji Hl Hc').
Qed.

Lemma settings_keep_device_witness :
  device_index
    (current_name (Some 1%nat)
       [ {| name := "HDMI"; max_input_channels := 0 |};
         {| name := "Microphone"; max_input_channels := 2 |} ])
    [ {| name := "HDMI"; max_input_channels := 0 |};
      {| name := "Microphone"; max_input_channels := 2 |} ]
    (_device_indices
       [ {| name := "HDMI"; max_input_channels := 0 |};
         {| name := "Microphone"; max_input_channels := 2 |} ])
  = Some 1%nat.
Proof.
  refine (proj2
    (settings_keep_device _ 1 {| name := "Microphone"; max_input_channels := 2 |}
       _ _ _ _)).
  - reflexivity.
  - reflexivity.
  - discriminate.
  - intros [|[|j]] dev' Hlt Hl Hc; [|lia|lia].
    injection Hl as <-. discriminate.
Defined.

End Devices.

(** ** The configuration file *)

Section Config.
Import config.

Local Arguments in_KEY_MAP : simpl never.
Local Arguments in_AVAILABLE_MODELS : simpl never.
Local Arguments isinstance_int : simpl never.
Local Arguments isinstance_bool : simpl never.
Local Arguments get : simpl never.
Local Arguments JSONDecodeError_or_IOError : simpl never.

Local Open Scope string_scope.

Lemma get_lookup (d : gmap string pyvalue) (k : string) (v : pyvalue) :
  d !! k = Some v → get d k = v.
Proof. unfold get. by intros ->. Qed.

Lemma in_KEY_MAP_true (v : pyvalue) :
  in_KEY_MAP v = Ok true →
  ∃ h, v = PStr h ∧ is_Some (HotkeyManager.KEY_MAP !! h).
Proof.
  destruct v; cbn; try discriminate. intros [= H%bool_decide_eq_true].
  by eexists.
Qed.

Lemma in_AVAILABLE_MODELS_true (v : pyvalue) :
  in_AVAILABLE_MODELS v = true → ∃ m, v = PStr m ∧ m ∈ AVAILABLE_MODELS.
Proof.
  destruct v; cbn; try discriminate. intros H%bool_decide_eq_true. by eexists.
Qed.

Lemma isinstance_bool_true (v : pyvalue) :
  isinstance_bool v = true → ∃ b, v = PBool b.
Proof. destruct v; cbn; try discriminate. by eexists. Qed.

Lemma device_guard (v : pyvalue) :
  bool_decide (v = PNone) || isinstance_int v = true →
  v = PNone ∨ isinstance_int v = true.
Proof.
  intros [H%bool_decide_eq_true|H]%orb_true_iff; [by left|by right].
Qed.

Lemma whitelisted_default : whitelisted DEFAULT_CONFIG.
Proof.
  unfold whitelisted, DEFAULT_CONFIG. repeat split.
  - exists DEFAULT_HOTKEY. split; [done|]. vm_compute. by eexists.
  - exists DEFAULT_MODEL. split; [done|]. apply available_elem_of. done.
  - exists PNone. split; [done|]. by left.
  - by exists true.
  - intros k [v Hk]. apply list_elem_of_In. cbn.
    repeat (apply lookup_insert_Some in Hk as [[<- _]|[_ Hk]]; [tauto|]).
    apply lookup_singleton_Some in Hk as [<- _]. tauto.
Qed.

Lemma whitelisted_insert (d : gmap string pyvalue) (k : string) (v : pyvalue) :
  whitelisted d →
  match k with
  | "hotkey" => ∃ h, v = PStr h ∧ is_Some (HotkeyManager.KEY_MAP !! h)
  | "model" => ∃ m, v = PStr m ∧ m ∈ AVAILABLE_MODELS
  | "audio_device" => v = PNone ∨ isinstance_int v = true
  | "sound_feedback" => ∃ b, v = PBool b
  | _ => False
  end →
  k ∈ ["hotkey"; "model"; "audio_device"; "sound_feedback"] →
  whitelisted (<[k := v]> d).
Proof.
  intros (Hh & Hm & Ha & Hs & Hdom) Hv Hk.
  apply list_elem_of_In in Hk. cbn in Hk.
  destruct Hk as [<-|[<-|[<-|[<-|[]]]]]; unfold whitelisted;
    rewrite ?lookup_insert_eq, ?lookup_insert_ne by done;
    (repeat split; try done);
    try (destruct Hv as (x & -> & Hx); by exists x);
    try (destruct Hv as (x & ->); by exists x);
    try (by exists v);
    intros k' [v' Hk']; (apply lookup_insert_Some in Hk' as [[<- _]|[_ Hk']];
      [apply list_elem_of_In; cbn; tauto|by apply Hdom]).
Qed.

Ltac use_lookup :=
  repeat match goal with
  | H : ?d !! ?k = Some ?v, G : context [get ?d ?k] |- _ =>
      rewrite (get_lookup d k v H) in G
  end.

Lemma load_config_whitelisted (f : t) (w : World) :
  match (load_config (f, w)).1 with
  | Ok d => whitelisted d
  | Raise _ => True
  end.
Proof.
  destruct f as [c we].
  destruct c as [|msg|msg|msg| |d];
    unfold load_config, read_json, getitem, of_result; run_monad;
    try apply whitelisted_default; try done.
  generalize whitelisted_default. generalize DEFAULT_CONFIG. intros d0 Hd0.
  crunch; try done;
    use_lookup;
    repeat first
      [ assumption
      | apply whitelisted_insert;
          [|first [ by apply in_KEY_MAP_true
                  | by apply in_AVAILABLE_MODELS_true
                  | by apply isinstance_bool_true
                  | by apply device_guard ]
           |apply list_elem_of_In; cbn; tauto] ].
Qed.

Lemma get_none (d : gmap string pyvalue) (k : string) :
  d !! k = None → get d k = PNone.
Proof. unfold get. by intros ->. Qed.

Lemma not_caught_KeyError (k : string) :
  JSONDecodeError_or_IOError (OtherError "KeyError" k) = false.
Proof. reflexivity. Qed.

Lemma not_caught_TypeError (msg : string) :
  JSONDecodeError_or_IOError (OtherError "TypeError" msg) = false.
Proof. reflexivity. Qed.

Lemma in_KEY_MAP_cases (v : pyvalue) :
  match in_KEY_MAP v with
  | Ok _ => v ≠ PList ∧ v ≠ PDict
  | Raise e =>
      (v = PList ∧ e = OtherError "TypeError" "unhashable type: 'list'")
      ∨ (v = PDict ∧ e = OtherError "TypeError" "unhashable type: 'dict'")
  end.
Proof. destruct v; unfold in_KEY_MAP; lazy beta iota; auto. Qed.

(** X9.  [load_config] lets exactly three exceptions escape: the
    [UnicodeDecodeError] of a file that is not UTF-8, the [TypeError] of a
    saved hotkey that is a list or an object, and the [KeyError] of a
    saved object without the key ["audio_device"].  A file that is
    missing, unreadable, not JSON or not an object never makes it
    raise. *)
Theorem load_config_raises (f : t) (w : World) (e : exn) :
  (load_config (f, w)).1 = Raise e
  ↔ match content f with
    | Undecodable msg => e = OtherError "UnicodeDecodeError" msg
    | Saved d =>
        (get d "hotkey" = PList
         ∧ e = OtherError "TypeError" "unhashable type: 'list'")
        ∨ (get d "hotkey" = PDict
           ∧ e = OtherError "TypeError" "unhashable type: 'dict'")
        ∨ (get d "hotkey" ≠ PList ∧ get d "hotkey" ≠ PDict
           ∧ d !! "audio_device" = None
           ∧ e = OtherError "KeyError" "audio_device")
    | _ => False
    end.
Proof.
  destruct f as [c we].
  destruct c as [|msg|msg|msg| |d];
    unfold load_config, read_json, getitem, of_result; run_monad.
  1-5: split; try done; try (intros [= <-]; done); try (intros ->; done).
  pose proof (in_KEY_MAP_cases (get d "hotkey")) as Hk.
  destruct (in_KEY_MAP (get d "hotkey")) as [known|e'] eqn:Hknown; cbn.
  - destruct Hk as [Hk1 Hk2].
    destruct (d !! "hotkey") as [vh|] eqn:Hh;
      [rewrite ?(get_lookup _ _ _ Hh) in *
      |rewrite ?(get_none _ _ Hh) in *; injection Hknown as <-];
    (destruct (d !! "model") as [vm|] eqn:Hm;
      [rewrite ?(get_lookup _ _ _ Hm) in *
      |rewrite ?(get_none _ _ Hm) in *;
       change (in_AVAILABLE_MODELS PNone) with false]);
    (destruct (d !! "audio_device") as [va|] eqn:Ha;
      [rewrite ?(get_lookup _ _ _ Ha) in *
      |rewrite ?(get_none _ _ Ha) in *;
       change (bool_decide (PNone = PNone) || isinstance_int PNone) with true]);
    (destruct (d !! "sound_feedback") as [vs|] eqn:Hs;
      [rewrite ?(get_lookup _ _ _ Hs) in *
      |rewrite ?(get_none _ _ Hs) in *;
       change (isinstance_bool PNone) with false]);
    try destruct known;
    try destruct (in_AVAILABLE_MODELS vm);
    try destruct (bool_decide (va = PNone) || isinstance_int va);
    try destruct (isinstance_bool vs);
    cbn; rewrite ?not_caught_KeyError; cbn;
    (split; [try discriminate; intros [= <-]; tauto|]);
    intros [[? _]|[[? _]|(_ & _ & ? & ->)]]; done.
  - destruct Hk as [[Hk ->]|[Hk ->]]; rewrite not_caught_TypeError; cbn;
      (split; [intros [= <-]; tauto|]);
      intros [[? ->]|[[? ->]|(? & ? & _)]]; congruence.
Qed.

(** X8.  What [load_config] returns is whitelisted, whatever the file
    holds: the four keys and no other, a hotkey of [KEY_MAP], a model of
    [AVAILABLE_MODELS], a device that is [None] or an [int], a [bool] for
    the sound. *)
Theorem load_config_validates (f : t) (w : World) (d : gmap string pyvalue) :
  (load_config (f, w)).1 = Ok d → whitelisted d.
Proof.
  intros H. pose proof (load_config_whitelisted f w) as Hw. by rewrite H in Hw.
Qed.

Lemma load_config_validates_witness :
  whitelisted
    {[ "hotkey" := PStr "f9"; "model" := PStr "base.en";
       "audio_device" := PInt 3; "sound_feedback" := PBool true ]}.
Proof.
  apply (load_config_validates
           {| content :=
                Saved {[ "hotkey" := PStr "space"; "model" := PStr "huge";
                         "audio_device" := PInt 3;
                         "sound_feedback" := PStr "yes";
                         "theme" := PStr "dark" ]};
              write_error := None |}
           (fresh calm)).
  vm_compute. reflexivity.
Defined.

Lemma whitelisted_to_Config (d : gmap string pyvalue) :
  whitelisted d →
  ∃ c, to_Config d = Some c
       ∧ is_Some (HotkeyManager.KEY_MAP !! SypherSTT.hotkey c)
       ∧ SypherSTT.model c ∈ AVAILABLE_MODELS.
Proof.
  intros ((h & Hh & Hkey) & (m & Hm & Hav) & (v & Ha & Hv) & (b & Hs) & _).
  unfold to_Config, get. rewrite Hh, Hm, Ha, Hs. cbn.
  destruct Hv as [->|Hv]; [by eexists|].
  destruct v; try discriminate; by eexists.
Qed.

(** X10.  The application always starts on what [load_config] returns:
    the four values have the types the constructor reads, and neither
    the transcriber nor the hotkey manager rejects them with a
    [ValueError]. *)
Theorem loaded_config_starts (f : t) (w : World) (d : gmap string pyvalue)
    (version : string) :
  (load_config (f, w)).1 = Ok d →
  ∃ c app,
    to_Config d = Some c
    ∧ SypherSTT.__init__ c version = Ok app
    ∧ SypherSTT._config app = c
    ∧ SypherSTT.state app = IDLE.
Proof.
  intros H. pose proof (load_config_whitelisted f w) as Hw. rewrite H in Hw.
  destruct (whitelisted_to_Config d Hw) as (c & Hc & [k Hk] & Hav).
  exists c. unfold SypherSTT.__init__, Transcriber.__init__,
    HotkeyManager.__init__.
  apply available_elem_of in Hav. rewrite Hav, Hk. cbn.
  eexists. repeat split; done.
Qed.

Lemma loaded_config_starts_witness :
  ∃ c app,
    to_Config DEFAULT_CONFIG = Some c
    ∧ SypherSTT.__init__ c "1.0" = Ok app
    ∧ SypherSTT._config app = c
    ∧ SypherSTT.state app = IDLE.
Proof.
  apply (loaded_config_starts
           {| content := Malformed "Expecting value"; write_error := None |}
           (fresh calm)).
  vm_compute. reflexivity.
Defined.

Lemma of_Config_lookup (c : SypherSTT.Config) :
  of_Config c !! "hotkey" = Some (PStr (SypherSTT.hotkey c))
  ∧ of_Config c !! "model" = Some (PStr (SypherSTT.model c))
  ∧ of_Config c !! "audio_device"
    = Some match SypherSTT.audio_device c with
           | Some i => PInt i
           | None => PNone
           end
  ∧ of_Config c !! "sound_feedback" = Some (PBool (SypherSTT.sound_feedback c)).
Proof. repeat split. Qed.

(** X11.  A saved configuration comes back: after [save_config] on a file
    that can be written, [load_config] returns the four values saved,
    except that a hotkey outside [KEY_MAP] or a model outside
    [AVAILABLE_MODELS] comes back as the default one. *)
Theorem save_then_load (c : SypherSTT.Config) (f : t) (w : World) :
  write_error f = None →
  let c' :=
    {| SypherSTT.hotkey :=
         if bool_decide (is_Some (HotkeyManager.KEY_MAP !! SypherSTT.hotkey c))
         then SypherSTT.hotkey c else DEFAULT_HOTKEY;
       SypherSTT.model :=
         if bool_decide (SypherSTT.model c ∈ AVAILABLE_MODELS)
         then SypherSTT.model c else DEFAULT_MODEL;
       SypherSTT.audio_device := SypherSTT.audio_device c;
       SypherSTT.sound_feedback := SypherSTT.sound_feedback c |} in
  (save_config (of_Config c) (f, w)).1 = Ok tt
  ∧ (load_config (exec (save_config (of_Config c)) (f, w))).1
    = Ok (of_Config c')
  ∧ to_Config (of_Config c') = Some c'.
Proof.
  intros Hw. destruct f as [content0 we]. cbn in Hw. subst we.
  destruct (of_Config_lookup c) as (Hh & Hm & Ha & Hs).
  destruct c as [h m dev sound].
  cbn [SypherSTT.hotkey SypherSTT.model SypherSTT.audio_device
       SypherSTT.sound_feedback] in *.
  set (known := bool_decide (is_Some (HotkeyManager.KEY_MAP !! h))).
  set (local := bool_decide (m ∈ AVAILABLE_MODELS)).
  assert (in_KEY_MAP (PStr h) = Ok known) as Hknown by reflexivity.
  assert (in_AVAILABLE_MODELS (PStr m) = local) as Hlocal by reflexivity.
  clearbody known local. cbv zeta.
  split; [done|]. split.
  - unfold save_config, load_config, read_json, getitem, of_result. run_monad.
    unfold get. rewrite Hh, Hm, Ha, Hs. cbn [default from_option id].
    rewrite Hknown, Hlocal.
    destruct known, local, dev; reflexivity.
  - destruct known, local, dev; reflexivity.
Qed.

Lemma save_then_load_witness :
  (load_config
     (exec (save_config (of_Config defaults))
        ({| content := Missing; write_error := None |}, fresh calm))).1
  = Ok (of_Config defaults).
Proof.
  refine (proj1 (proj2
    (save_then_load defaults {| content := Missing; write_error := None |}
       (fresh calm) _))).
  reflexivity.
Defined.

End Config.

(** ** The engine, continued *)

Section EngineMore.
Import Transcriber.

Ltac pick Hin :=
  apply list_elem_of_In in Hin; cbn in Hin;
  repeat (destruct Hin as [Hin|Hin]);
  try done; try discriminate;
  try (unfold _get_model_path in *; cbn in *; split; congruence);
  try (unfold _get_model_path in *; cbn in *; congruence).

Lemma up_to_date_ensure_model (tr : t) (w : World) :
  up_to_date tr → up_to_date (exec ensure_model (tr, w)).1.
Proof.
  intros Hup. unfold exec.
  destruct (ensure_model_cases tr w) as [m Hm| | |]; cbn [fst snd]; try done.
  intros m [= <-]. done.
Qed.

(** What a transcription adds to the trace, and that it keeps the model
    in memory in step with the name. *)
Lemma transcribe_trace (audio : ndarray) (tr : t) (w : World) :
  up_to_date tr →
  up_to_date (exec (transcribe audio) (tr, w)).1
  ∧ ∃ new,
      trace (exec (transcribe audio) (tr, w)).2 = trace w ++ new
      ∧ ∀ p, (∀ a, WhisperRun p a ∈ new → p = _get_model_path tr ∧ a = audio)
             ∧ (WhisperLoad p ∈ new → p = _get_model_path tr).
Proof.
  intros Hup. unfold exec.
  destruct (decide (size audio < 1600)) as [Hs|Hs].
  { rewrite (transcribe_short audio tr w Hs). cbn [fst snd trace with_trace].
    split; [done|]. eexists. split; [done|].
    intros p. split; [intros a|]; intros Hin; pick Hin. }
  pose proof (up_to_date_ensure_model tr w Hup) as Hup1.
  pose proof (ensure_model_keeps tr w) as (Hn & _ & _ & Hok).
  assert (∃ new, trace (exec ensure_model (tr, w)).2 = trace w ++ new
                 ∧ ∀ p, (∀ a, WhisperRun p a ∉ new)
                        ∧ (WhisperLoad p ∈ new → p = _get_model_path tr))
    as (new1 & Htr1 & Hnew1).
  { unfold exec.
    destruct (ensure_model_cases tr w) as [m Hm| | |]; cbn [fst snd].
    - exists []. split; [by rewrite app_nil_r|].
      intros p. split; [intros a|]; by intros ?%elem_of_nil.
    - exists []. split; [by rewrite app_nil_r|].
      intros p. split; [intros a|]; by intros ?%elem_of_nil.
    - eexists. split; [reflexivity|].
      intros p. split; [intros a|]; intros Hin; pick Hin.
    - eexists. split; [cbn; by rewrite <- app_assoc|].
      intros p. split; [intros a|]; intros Hin; pick Hin. }
  unfold exec in *.
  destruct (ensure_model (tr, w)) as [[[]|e] [tr1 w1]] eqn:He; cbn [fst snd] in *.
  - specialize (Hok eq_refl). unfold is_loaded in Hok.
    destruct (_model tr1) as [m|] eqn:Hm; [|done].
    rewrite (transcribe_long_runs audio tr w tr1 w1 m); [|lia|done|done].
    pose proof (Hup1 m Hm) as Hpath. unfold _get_model_path in Hpath, Hup1 |- *.
    rewrite Hn in Hpath.
    destruct (whisper_run (env w1) (model_path m) audio);
      cbn [fst snd trace with_trace]; (split; [done|]);
      rewrite Htr1, <- app_assoc; (eexists; split; [reflexivity|]);
      intros p; destruct (Hnew1 p) as [Hrun Hload];
      (split; [intros ?|]); rewrite elem_of_app; (intros [Hin|Hin];
        [by (apply Hload in Hin || apply Hrun in Hin)|]);
      pick Hin.
  - rewrite (transcribe_long_fails audio tr w e (tr1, w1)); [|lia|done].
    cbn [fst snd]. split; [done|]. exists new1. split; [done|].
    intros p. destruct (Hnew1 p) as [Hrun Hload]. split; [|done].
    intros a Hin. by apply Hrun in Hin.
Qed.

Lemma up_to_date_step (ev : event) (s : t * World) :
  up_to_date s.1 → up_to_date (step ev s).1.
Proof.
  destruct s as [tr w]. cbn [fst]. intros Hup.
  destruct ev as [|audio|value|e]; cbn [step fst snd].
  - by apply up_to_date_ensure_model.
  - by apply transcribe_trace.
  - unfold exec. destruct (available value) eqn:Hav.
    + destruct (decide (value = _model_size tr)) as [Heq|Hne].
      * by rewrite (setter_same tr w value Hav Heq).
      * rewrite (setter_changes tr w value Hav Hne). by intros m.
    + by rewrite (setter_invalid tr w value Hav).
  - done.
Qed.

(** X12.  A transcription never runs a stale model.  Whatever was loaded,
    transcribed and reconfigured since the transcriber was made, the model
    in memory is the one of the configured name, and the next
    [transcribe] loads and runs no model but that one, on no audio but
    its own. *)
Theorem inference_uses_configured_model (name : string) (tr0 : t) (w0 : World)
    (evs : list event) (audio : ndarray) :
  __init__ name = Ok tr0 →
  let s := steps evs (tr0, w0) in
  up_to_date s.1
  ∧ ∃ new,
      trace (exec (transcribe audio) s).2 = trace s.2 ++ new
      ∧ ∀ p, (∀ a, WhisperRun p a ∈ new
                   → p = path_div MODELS_DIR (model_size s.1) ∧ a = audio)
             ∧ (WhisperLoad p ∈ new → p = path_div MODELS_DIR (model_size s.1)).
Proof.
  intros Hinit. cbv zeta.
  assert (up_to_date (steps evs (tr0, w0)).1) as Hup.
  { unfold steps.
    apply (foldl_invariant (λ s ev, step ev s) (λ s, up_to_date s.1) (λ _, True)).
    - intros s ev _. apply up_to_date_step.
    - by apply Forall_true.
    - unfold __init__ in Hinit. destruct (negb (available name)); [done|].
      injection Hinit as <-. by intros m. }
  split; [done|].
  destruct (steps evs (tr0, w0)) as [tr w]. by apply transcribe_trace.
Qed.

Lemma inference_uses_configured_model_witness :
  up_to_date
    (steps [EnsureModel; SetModelSize "tiny"; Transcribe (silence 1600)]
       ({| _model_size := "base.en"; _model := None |}, fresh calm)).1.
Proof.
  refine (proj1
    (inference_uses_configured_model "base.en" _ (fresh calm)
       [EnsureModel; SetModelSize "tiny"; Transcribe (silence 1600)] [] _)).
  reflexivity.
Defined.

End EngineMore.

(** ** The models on disk *)

Section LocalModels.
Import Transcriber.

Lemma child_of_Some (dir p : path) (n : string) :
  child_of dir p = Some n ↔ p = path_div dir n.
Proof.
  unfold child_of, path_div. split.
  - destruct (drop (length dir) p) as [|n' [|]]; try done.
    case_bool_decide; [|done]. by intros [= <-].
  - intros ->. rewrite drop_app_length.
    by rewrite bool_decide_eq_true_2.
Qed.

Lemma NoDup_omap {A B} (f : A → option B) (l : list A) :
  (∀ x y z, f x = Some z → f y = Some z → x = y) →
  NoDup l → NoDup (omap f l).
Proof.
  intros Hinj. induction 1 as [|x l Hx _ IH]; cbn; [constructor|].
  destruct (f x) as [z|] eqn:Hfx; [|done].
  constructor; [|done].
  intros (y & Hy & Hfy)%list_elem_of_omap.
  by rewrite (Hinj x y z Hfx Hfy) in Hx.
Qed.

Lemma NoDup_List_filter {A} (f : A → bool) (l : list A) :
  NoDup l → NoDup (List.filter f l).
Proof.
  induction 1 as [|x l Hx _ IH]; cbn; [constructor|].
  destruct (f x); [|done]. constructor; [|done].
  intros Hin. apply list_elem_of_In, filter_In in Hin as [Hin _].
  by apply list_elem_of_In in Hin.
Qed.

Lemma elem_of_iterdir (w : World) (dir : path) (n : string) :
  n ∈ iterdir w dir ↔ path_exists w (path_div dir n) = true.
Proof.
  unfold iterdir, path_exists. rewrite list_elem_of_omap, bool_decide_eq_true.
  split.
  - intros (p & Hp%elem_of_elements & ->%child_of_Some). done.
  - intros Hin. exists (path_div dir n). split; [by apply elem_of_elements|].
    by apply child_of_Some.
Qed.

(** X13.  [get_local_models] lists, in increasing order and none twice,
    exactly the names of the directories of [models/] that hold a
    [model.bin]; so a transcriber configured with a name it lists finds
    its model on disk. *)
Theorem get_local_models_spec (w : World) (is_dir : path → bool) :
  StronglySorted String.le (get_local_models w is_dir)
  ∧ NoDup (get_local_models w is_dir)
  ∧ (∀ n, n ∈ get_local_models w is_dir
          ↔ path_exists w MODELS_DIR = true
            ∧ path_exists w (path_div MODELS_DIR n) = true
            ∧ is_dir (path_div MODELS_DIR n) = true
            ∧ path_exists w (path_div (path_div MODELS_DIR n) "model.bin")
              = true)
  ∧ (∀ tr, _model_size tr ∈ get_local_models w is_dir → on_disk w tr = true).
Proof.
  assert (∀ n, n ∈ get_local_models w is_dir
          ↔ path_exists w MODELS_DIR = true
            ∧ path_exists w (path_div MODELS_DIR n) = true
            ∧ is_dir (path_div MODELS_DIR n) = true
            ∧ path_exists w (path_div (path_div MODELS_DIR n) "model.bin")
              = true) as Hmem.
  { intros n. unfold get_local_models.
    destruct (path_exists w MODELS_DIR); cbn [negb].
    - rewrite merge_sort_Permutation, list_elem_of_In, filter_In,
        <- list_elem_of_In, elem_of_iterdir, andb_true_iff. tauto.
    - split; [by intros ?%elem_of_nil|]. by intros [? _]. }
  split; [|split; [|split]].
  - unfold get_local_models. destruct (negb _); [constructor|].
    apply StronglySorted_merge_sort; apply _.
  - unfold get_local_models. destruct (negb _); [constructor|].
    rewrite merge_sort_Permutation. apply NoDup_List_filter.
    apply NoDup_omap; [|apply NoDup_elements].
    intros p q n Hp%child_of_Some Hq%child_of_Some. congruence.
  - done.
  - intros tr (_ & Hdir & _ & Hbin)%Hmem. unfold on_disk, _get_model_path.
    by rewrite Hdir, Hbin.
Qed.

End LocalModels.

(** ** The listener *)

Section Listener.
Import HotkeyManager Probe.

Lemma alternate_snoc (held b : bool) (calls : list signal) (sig : signal) :
  alternate held calls = Some b →
  alternate held (calls ++ [sig])
  = match sig, b with
    | Started, false => Some true
    | Stopped, true => Some false
    | _, _ => None
    end.
Proof.
  revert held. induction calls as [|c calls IH]; intros held; cbn.
  - intros [= ->]. by destruct sig, b.
  - destruct c, held; try done; apply IH.
Qed.

(** A key event: no exception leaves the listener's callback, whatever
    the callback of the owner raises; the callback of the owner is called
    when the manager listens, the key is its key and going down finds it
    up, or going up finds it down. *)
Lemma deliver_spec (start_error stop_error : option exn) (ev : key_event)
    (s : Probe.t * World) :
  let out := deliver start_error stop_error ev s in
  out.1 = Ok tt
  ∧ env out.2.2 = env s.2
  ∧ _hotkey_name out.2.1.1 = _hotkey_name s.1.1
  ∧ _hotkey out.2.1.1 = _hotkey s.1.1
  ∧ _active out.2.1.1 = _active s.1.1
  ∧ match ev with
    | Down key =>
        if _active s.1.1 && bool_decide (key = _hotkey s.1.1)
           && negb (_is_held s.1.1)
        then _is_held out.2.1.1 = true ∧ out.2.1.2 = s.1.2 ++ [Started]
        else out.2.1 = s.1
    | Up key =>
        if _active s.1.1 && bool_decide (key = _hotkey s.1.1)
           && _is_held s.1.1
        then _is_held out.2.1.1 = false ∧ out.2.1.2 = s.1.2 ++ [Stopped]
        else out.2.1 = s.1
    end.
Proof.
  destruct s as [[[n k l held active] calls] w].
  destruct ev as [key|key]; unfold deliver, _on_press, _on_release, callback;
    run_monad;
    destruct active; cbn; try done;
    destruct (bool_decide (key = k)); cbn; try done;
    destruct held; cbn; try done;
    [destruct start_error|destruct stop_error]; cbn; done.
Qed.

Lemma run_command_calls (start_error stop_error : option exn) (c : command)
    (s : Probe.t * World) :
  is_SetHotkeyName c = false →
  ∀ b, alternate false s.1.2 = Some b → _is_held s.1.1 = b →
  let s' := exec (run_command start_error stop_error c) s in
  ∃ b', alternate false s'.1.2 = Some b' ∧ _is_held s'.1.1 = b'.
Proof.
  intros Hc b Halt Hheld.
  destruct c as [ev|value| |]; try done; cbn [run_command].
  - pose proof (deliver_spec start_error stop_error ev s) as Hd.
    cbv zeta in Hd. unfold exec. cbv zeta.
    destruct Hd as (_ & _ & _ & _ & _ & Hd).
    destruct ev as [key|key];
      (destruct (_ && _ && _) eqn:Hguard;
       [destruct Hd as [Hh Hcalls]; rewrite Hcalls, Hh;
        rewrite (alternate_snoc _ _ _ _ Halt);
        apply andb_true_iff in Hguard as [_ Hg];
        rewrite Hheld in Hg; destruct b; try done; by eexists
       |rewrite Hd; by exists b]).
  - destruct s as [[[] calls] w]. exists b. by subst b.
  - destruct s as [[[] calls] w]. exists b. by subst b.
Qed.

(** X14.  Push-to-talk calls alternate.  Whatever keys go down and up,
    with the auto-repeat of a key held down, with the listening switched
    off and on, and whatever the callbacks raise, [on_start] and
    [on_stop] are called in turn, [on_start] first, as long as the hotkey
    is not set anew; the key counts as held exactly after an [on_start];
    and no exception of a callback leaves the listener. *)
Theorem hotkey_calls_alternate (start_error stop_error : option exn)
    (cs : list command) (m : HotkeyManager.t) (w : World) :
  _is_held m = false →
  Forall (λ c, is_SetHotkeyName c = false) cs →
  let s := run_commands start_error stop_error cs ((m, []), w) in
  alternate false s.1.2 = Some (_is_held s.1.1)
  ∧ ∀ ev s, (deliver start_error stop_error ev s).1 = Ok tt.
Proof.
  intros Hheld Hcs. split.
  - assert (∃ b, alternate false
                   (run_commands start_error stop_error cs ((m, []), w)).1.2
                 = Some b
                 ∧ _is_held
                     (run_commands start_error stop_error cs ((m, []), w)).1.1
                   = b) as (b & -> & ->); [|done].
    unfold run_commands.
    apply (foldl_invariant
             (λ s c, exec (run_command start_error stop_error c) s)
             (λ s, ∃ b, alternate false s.1.2 = Some b ∧ _is_held s.1.1 = b)
             (λ c, is_SetHotkeyName c = false)); [|done|].
    + intros s c Hc (b & Halt & Hb).
      by apply (run_command_calls start_error stop_error c s Hc b).
    + exists false. split; [done|exact Hheld].
  - intros ev s.
    by destruct (deliver_spec start_error stop_error ev s) as [? _].
Qed.

Lemma hotkey_calls_alternate_witness :
  alternate false
    (run_commands (Some (OtherError "RuntimeError" "boom")) None
       [Start; Event (Down f9); Event (Down f9); Event (Down f1);
        Event (Up f9); Event (Up f9); Event (Down f9)]
       (({| _hotkey_name := "f9"; _hotkey := f9; _listener := false;
            _is_held := false; _active := false |}, []), fresh calm)).1.2
  = Some true.
Proof.
  refine (proj1
    (hotkey_calls_alternate (Some (OtherError "RuntimeError" "boom")) None
       [Start; Event (Down f9); Event (Down f9); Event (Down f1);
        Event (Up f9); Event (Up f9); Event (Down f9)]
       {| _hotkey_name := "f9"; _hotkey := f9; _listener := false;
          _is_held := false; _active := false |} (fresh calm) _ _)).
  - reflexivity.
  - repeat constructor.
Defined.

Local Opaque KEY_MAP.

Lemma run_command_name (start_error stop_error : option exn) (c : command)
    (s : Probe.t * World) :
  KEY_MAP !! hotkey_name s.1.1 = Some (_hotkey s.1.1) →
  let s' := exec (run_command start_error stop_error c) s in
  KEY_MAP !! hotkey_name s'.1.1 = Some (_hotkey s'.1.1)
  ∧ hotkey_name s'.1.1 = default (hotkey_name s.1.1) (last (names_set [c])).
Proof.
  intros Hinv. destruct c as [ev|value| |]; cbn [run_command names_set omap].
  - destruct (deliver_spec start_error stop_error ev s) as (_ & _ & Hn & Hk & _).
    unfold exec, hotkey_name in *. cbv zeta. by rewrite Hn, Hk.
  - destruct s as [[[n k l held active] calls] w].
    unfold exec, manager, hotkey_name_setter, hotkey_name, names_set in *.
    cbn. destruct (KEY_MAP !! value) as [k'|] eqn:Hv; run_monad; by rewrite ?Hv.
  - by destruct s as [[[n k l held active] calls] w].
  - by destruct s as [[[n k l held active] calls] w].
Qed.

(** X15.  The key listened for is always the key of the name.  Through
    every use of a manager the constructor accepted, [hotkey_name] is the
    last name of [KEY_MAP] that was set, or the constructor's, and the
    key compared with the events is the key [KEY_MAP] gives it; a name
    outside [KEY_MAP] changes nothing. *)
Theorem hotkey_follows_name (start_error stop_error : option exn)
    (name : string) (m : HotkeyManager.t) (w : World) (cs : list command) :
  __init__ name = Ok m →
  let s := run_commands start_error stop_error cs ((m, []), w) in
  KEY_MAP !! hotkey_name s.1.1 = Some (_hotkey s.1.1)
  ∧ hotkey_name s.1.1 = default name (last (names_set cs)).
Proof.
  intros Hinit. cbv zeta.
  induction cs as [|c cs IH] using rev_ind.
  - unfold __init__ in Hinit. destruct (KEY_MAP !! name) as [k|] eqn:Hk; [|done].
    injection Hinit as <-. done.
  - unfold run_commands in *. rewrite foldl_app. cbn [foldl].
    destruct IH as [IHk IHn].
    destruct (run_command_name start_error stop_error c _ IHk) as [Hk Hn].
    split; [done|]. rewrite Hn, IHn. unfold names_set. rewrite omap_app.
    destruct c as [ev|value| |]; cbn [omap list_omap];
      rewrite ?app_nil_r; try done.
    destruct (KEY_MAP !! value); cbn [omap list_omap];
      rewrite ?app_nil_r, ?last_snoc; done.
Qed.

Local Transparent KEY_MAP.

Lemma hotkey_follows_name_witness :
  hotkey_name
    (run_commands None None
       [Start; SetHotkeyName "pause"; Event (Down pause);
        SetHotkeyName "space"]
       (({| _hotkey_name := "f9"; _hotkey := f9; _listener := false;
            _is_held := false; _active := false |}, []), fresh calm)).1.1
  = "pause".
Proof.
  refine (proj2
    (hotkey_follows_name None None "f9" _ (fresh calm)
       [Start; SetHotkeyName "pause"; Event (Down pause);
        SetHotkeyName "space"] _)).
  reflexivity.
Defined.

End Listener.

(** ** The clipboard *)

Section Clipboard.
Context {C : Type}.

(** X16.  [paste_text] with an empty text does nothing.  Otherwise it
    copies the text, and fails exactly when that copy fails, with the
    error of the copy; Ctrl+V is sent only after the copy went through;
    and the clipboard gets its old text back exactly when that was asked
    for, the clipboard held text only, reading it, the copy and the key
    stroke all went through. *)
Theorem paste_text_outcome (text : string) (restore_clipboard : bool)
    (s : C * World) :
  let out := paste_text text restore_clipboard s in
  if negb (truthy text) then out = (Ok tt, s)
  else
    out.2.1 = s.1 ∧ env out.2.2 = env s.2
    ∧ out.1 = match clip_copy (env s.2) with
              | Some e => Raise e
              | None => Ok tt
              end
    ∧ ∃ new,
        trace out.2.2 = trace s.2 ++ new
        ∧ ClipboardCopy text ∈ new
        ∧ (∀ t, ClipboardCopy t ∈ new → t = text)
        ∧ (∀ keys, SendKeys keys ∈ new → clip_copy (env s.2) = None)
        ∧ (clip_copy (env s.2) = None → SendKeys ["ctrl"; "v"]%string ∈ new)
        ∧ ∀ old, ClipboardRestore old ∈ new
                 ↔ restore_clipboard = true
                   ∧ clip_text_only (env s.2) = true
                   ∧ clip_paste (env s.2) = Ok old
                   ∧ clip_copy (env s.2) = None
                   ∧ send_keys (env s.2) = None.
Proof.
  destruct s as [c w]. cbv zeta. unfold paste_text.
  destruct (truthy text); cbn [negb]; [|done].
  run_monad.
  destruct restore_clipboard; cbn;
    [destruct (clip_text_only (env w)); cbn;
     [destruct (clip_paste (env w)) as [old0|e0]; cbn|]|];
    (destruct (clip_copy (env w)) as [e1|]; cbn;
     [|destruct (send_keys (env w)) as [e2|]; cbn]);
    (split; [done|]); (split; [done|]); (split; [done|]);
    (eexists; split; [rewrite <- ?app_assoc; reflexivity|]);
    (split; [in_calls|]);
    (split; [intros t Hin; apply list_elem_of_In in Hin; cbn in Hin;
             intuition congruence|]);
    (split; [intros keys Hin; apply list_elem_of_In in Hin; cbn in Hin;
             intuition congruence|]);
    (split; [intros Hc; try discriminate; in_calls|]);
    intros old; rewrite list_elem_of_In; cbn;
    intuition (try discriminate; try congruence).
Qed.

End Clipboard.
